(** * triSYCL ACAP model: cascade stream addressing and the tile base

    A shallow embedding of

    - [include/CL/sycl/vendor/Xilinx/acap/me/cascade_stream.hpp]
      (the array of cascade pipes and the two per-tile accessors), and
    - [include/CL/sycl/vendor/Xilinx/acap/aie/tile_base.hpp]
      (the thread, the AXI stream switch and the port accessors),

    together with the start/end conditionals of
    [tests/acap/cascade_stream.cpp].

    C++ [int] values are mathematical integers of [Z] together with the
    32-bit range they have to stay in: signed overflow and an array
    subscript outside the array are undefined behaviour in C++, and are
    faults of the model. *)

From Stdlib Require Import ZArith List Bool Lia.
From Stdlib Require Import Permutation.
From Stdlib Require String DecimalString DecimalZ DecimalPos.
Import ListNotations.

Local Open Scope Z_scope.

(** ** Faults and the result monad *)

Inductive fault : Set :=
| SignedOverflow      (* an [int] operation left the range of [int] *)
| SubscriptOutOfArray (* a built-in array subscript outside the array *)
| PortOutOfRange.     (* a port index the stream switch does not have *)

Inductive res (A : Type) : Type :=
| Ok (a : A)
| Fail (f : fault).

Arguments Ok {A} a.
Arguments Fail {A} f.

Definition bind {A B : Type} (r : res A) (k : A -> res B) : res B :=
  match r with
  | Ok a => k a
  | Fail f => Fail f
  end.

Notation "x <- r ;; k" := (bind r (fun x => k))
  (at level 61, r at next level, right associativity).

(** ** The C++ [int] type *)

Module Int.

Definition min_int : Z := - 2 ^ 31.
Definition max_int : Z := 2 ^ 31 - 1.

Definition in_range (z : Z) : bool := (min_int <=? z) && (z <=? max_int).

Definition checked (z : Z) : res Z :=
  if in_range z then Ok z else Fail SignedOverflow.

Definition add (a b : Z) : res Z := checked (a + b).
Definition sub (a b : Z) : res Z := checked (a - b).
Definition mul (a b : Z) : res Z := checked (a * b).

(** [a & b]; on two's complement [int]s this is the bitwise and of the
    integers. *)
Definition and (a b : Z) : Z := Z.land a b.

(** Contextual conversion of an [int] to [bool]. *)
Definition to_bool (a : Z) : bool := negb (a =? 0).

End Int.

(** Subscript of a built-in array by an [int]. *)
Definition subscript {A : Type} (a : list A) (i : Z) : res A :=
  if i <? 0 then Fail SubscriptOutOfArray
  else match nth_error a (Z.to_nat i) with
       | Some v => Ok v
       | None => Fail SubscriptOutOfArray
       end.

(** ** Geography *)

(** Modelled from the spec: [geography.hpp] is not part of the sources at
    hand.  The cascade stream and the test only read the constants below,
    which are taken as the fields of a record. *)
Record Geography : Set := {
  x_min : Z;
  x_max : Z;
  y_min : Z;
  y_max : Z;
  x_size : Z;
  y_size : Z
}.

(** Modelled from the spec: what the spec says of the constants of a
    geography ([x_max = x_size - 1], extents counted from a zero
    minimum).  The array bound [x_size * y_size + 1] of the cascade
    stream is an [int] constant expression, so it has to be
    representable. *)
Definition geo_ok (g : Geography) : Prop :=
  x_min g = 0 /\ y_min g = 0 /\
  x_max g = x_size g - 1 /\ y_max g = y_size g - 1 /\
  0 < x_size g /\ 0 < y_size g /\
  x_size g * y_size g + 1 <= Int.max_int.

(** Modelled from the spec: the geography of [layout::size<X, Y>], the
    layout used by [tests/acap/cascade_pipeliner.cpp]; [X] columns and
    [Y] rows. *)
Definition layout_size (X Y : Z) : Geography :=
  {| x_min := 0; x_max := X - 1; y_min := 0; y_max := Y - 1;
     x_size := X; y_size := Y |}.

(** A coordinate of the array. *)
Definition valid_tile (g : Geography) (x y : Z) : Prop :=
  0 <= x <= x_max g /\ 0 <= y < y_size g.

(** ** Pipes *)

(** Modelled from the spec: [access::target] is not part of the sources
    at hand; an access to a pipe is blocking or not. *)
Inductive target : Set :=
| pipe_target      (* access::target::pipe: non-blocking *)
| blocking_pipe.   (* access::target::blocking_pipe *)

(** Modelled from the spec: [access::mode], for what the accessors of a
    pipe use of it. *)
Inductive mode : Set :=
| read
| write.

(** Modelled from the spec: [cl::sycl::static_pipe] is not part of the
    sources at hand.  A pipe is a bounded queue of elements, the oldest
    first. *)
Record static_pipe : Set := {
  capacity : nat;
  content : list Z
}.

(** Modelled from the spec: a default-constructed [static_pipe<int, N>],
    empty, with room for [N] elements. *)
Definition new_static_pipe (N : nat) : static_pipe :=
  {| capacity := N; content := [] |}.

(** What an operation on a pipe does: it completes with a value and the
    pipe after it, or the calling thread is suspended. *)
Inductive op_result (A : Type) : Type :=
| Done (a : A) (p : static_pipe)
| Suspended.

Arguments Done {A} a p.
Arguments Suspended {A}.

(** Modelled from the spec: (4.2) a blocking read suspends while the pipe
    is empty; a non-blocking read reports not-ready ([None]); otherwise
    the oldest element is removed and returned. *)
Definition pipe_read (t : target) (p : static_pipe) : op_result (option Z) :=
  match content p with
  | v :: rest => Done (Some v) {| capacity := capacity p; content := rest |}
  | [] => match t with
          | blocking_pipe => Suspended
          | pipe_target => Done None p
          end
  end.

(** Modelled from the spec: (4.2) a blocking write suspends while there is
    no room; a non-blocking write reports channel-full ([false]);
    otherwise the element is appended. *)
Definition pipe_write (t : target) (v : Z) (p : static_pipe) : op_result bool :=
  if (length (content p) <? capacity p)%nat
  then Done true {| capacity := capacity p; content := content p ++ [v] |}
  else match t with
       | blocking_pipe => Suspended
       | pipe_target => Done false p
       end.

(** A run of writes, each with its own access target; [Some] when every
    one of them succeeded. *)
Fixpoint pipe_writes (ws : list (target * Z)) (p : static_pipe)
  : option static_pipe :=
  match ws with
  | [] => Some p
  | (t, v) :: ws' =>
      match pipe_write t v p with
      | Done true p' => pipe_writes ws' p'
      | _ => None
      end
  end.

(** A run of reads, each with its own access target; [Some] with the
    values read, in the order read, when every one of them succeeded. *)
Fixpoint pipe_reads (ts : list target) (p : static_pipe)
  : option (list Z * static_pipe) :=
  match ts with
  | [] => Some ([], p)
  | t :: ts' =>
      match pipe_read t p with
      | Done (Some v) p' =>
          match pipe_reads ts' p' with
          | Some (vs, p'') => Some (v :: vs, p'')
          | None => None
          end
      | _ => None
      end
  end.

(** An accessor obtained from a pipe of an array of pipes: the slot of the
    pipe it refers to, and the access mode and target it was asked with. *)
Record pipe_accessor : Set := {
  acc_slot : Z;
  acc_mode : mode;
  acc_target : target
}.

(** ** cascade_stream.hpp *)

Record cascade_stream : Set := {
  cascade_stream_pipes : list static_pipe
}.

(** [cl::sycl::static_pipe<int, 4>
     cascade_stream_pipes[geo::x_size*geo::y_size + 1];] *)
Definition cascade_stream_pipes_bound (g : Geography) : Z :=
  x_size g * y_size g + 1.

Definition new_cascade_stream (g : Geography) : cascade_stream :=
  {| cascade_stream_pipes :=
       repeat (new_static_pipe 4) (Z.to_nat (cascade_stream_pipes_bound g)) |}.

(** [(y & 1) ? geo::x_max - x : x] *)
Definition row_offset (g : Geography) (x y : Z) : res Z :=
  if Int.to_bool (Int.and y 1) then Int.sub (x_max g) x else Ok x.

(** The subscript of [get_cascade_stream_in]:
    [geo::x_size*y + ((y & 1) ? geo::x_max - x : x)] *)
Definition cascade_stream_in_index (g : Geography) (x y : Z) : res Z :=
  m <- Int.mul (x_size g) y ;;
  o <- row_offset g x y ;;
  Int.add m o.

(** The subscript of [get_cascade_stream_out]:
    [geo::x_size*y + 1 + ((y & 1) ? geo::x_max - x : x)] *)
Definition cascade_stream_out_index (g : Geography) (x y : Z) : res Z :=
  m <- Int.mul (x_size g) y ;;
  m1 <- Int.add m 1 ;;
  o <- row_offset g x y ;;
  Int.add m1 o.

Definition get_cascade_stream_in (g : Geography) (cs : cascade_stream)
    (Target : target) (x y : Z) : res pipe_accessor :=
  i <- cascade_stream_in_index g x y ;;
  _ <- subscript (cascade_stream_pipes cs) i ;;
  Ok {| acc_slot := i; acc_mode := read; acc_target := Target |}.

Definition get_cascade_stream_out (g : Geography) (cs : cascade_stream)
    (Target : target) (x y : Z) : res pipe_accessor :=
  i <- cascade_stream_out_index g x y ;;
  _ <- subscript (cascade_stream_pipes cs) i ;;
  Ok {| acc_slot := i; acc_mode := write; acc_target := Target |}.

(** ** tests/acap/cascade_stream.cpp: the conditionals of [tile::run] *)

(** [t::x == geo::x_min && t::y == geo::y_min] *)
Definition at_cascade_start (g : Geography) (x y : Z) : bool :=
  (x =? x_min g) && (y =? y_min g).

(** [t::x == ((t::y & 1) ? geo::x_min : geo::x_max) && t::y == geo::y_max] *)
Definition at_cascade_end (g : Geography) (x y : Z) : bool :=
  (x =? (if Int.to_bool (Int.and y 1) then x_min g else x_max g))
  && (y =? y_max g).

(** ** The serpentine order *)

(** The columns of the array, from left to right. *)
Definition columns (g : Geography) : list Z :=
  map Z.of_nat (seq 0 (Z.to_nat (x_size g))).

(** Modelled from the spec: the tiles of row [y] in the order the chain
    visits them (4.3), with increasing [x] on an even row and decreasing
    [x] on an odd row. *)
Definition row_tiles (g : Geography) (y : nat) : list (Z * Z) :=
  map (fun x => (x, Z.of_nat y))
      (if Nat.even y then columns g else rev (columns g)).

(** Modelled from the spec: the order in which the cascade chain visits
    the tiles (4.3), row by row; [geography.hpp], which has the linear
    order of the chain, is not part of the sources at hand. *)
Definition serpentine (g : Geography) : list (Z * Z) :=
  flat_map (row_tiles g) (seq 0 (Z.to_nat (y_size g))).

(** The column of the last tile of the chain. *)
Definition end_column (g : Geography) : Z :=
  if Z.even (y_max g) then x_max g else 0.

(** ** The AXI stream switch

    [axi_stream_switch.hpp] is not part of the sources at hand; the
    switch is the one the spec describes (4.1, 4.2). *)

Module axi_stream_switch.

Inductive direction : Set :=
| input
| output.

(** Modelled from the spec: the switch holds two ordered collections of
    ports, inputs and outputs, each port bound to one queue. *)
Record t : Set := {
  in_ : list static_pipe;
  out : list static_pipe
}.

(** Modelled from the spec: the typed, moded access handle a port hands
    out; [T] is the element type of the transfers. *)
Record handle (T : Type) : Set := {
  h_direction : direction;
  h_port : Z;
  h_target : target
}.

Arguments h_direction {T} h.
Arguments h_port {T} h.
Arguments h_target {T} h.

(** The indices of the ports of a collection. *)
Definition valid_port (ports : list static_pipe) (port : Z) : bool :=
  (0 <=? port) && (port <? Z.of_nat (length ports)).

(** Modelled from the spec: [ports[port]]; selecting a port by an index
    the collection does not have fails with an out-of-range condition. *)
Definition select (ports : list static_pipe) (port : Z) : res static_pipe :=
  if valid_port ports port
  then match nth_error ports (Z.to_nat port) with
       | Some p => Ok p
       | None => Fail PortOutOfRange
       end
  else Fail PortOutOfRange.

End axi_stream_switch.

(** ** tile_base.hpp *)

Module tile_base.

(** [std::thread]: the identifier of the thread of execution the object
    owns, if it owns one. *)
Definition std_thread : Set := option nat.

Record t : Set := {
  thread : std_thread;
  axi_ss : axi_stream_switch.t
}.

(** Member functions: the tile before, and a result with the tile
    after, or a fault. *)
Definition method (A : Type) : Type := t -> res (A * t).

(** [return axi_ss.in[port].in<T, Target>();] *)
Definition in_ (T : Type) (Target : target) (port : Z)
  : method (axi_stream_switch.handle T) :=
  fun self =>
    _ <- axi_stream_switch.select (axi_stream_switch.in_ (axi_ss self)) port ;;
    Ok ({| axi_stream_switch.h_direction := axi_stream_switch.input;
           axi_stream_switch.h_port := port;
           axi_stream_switch.h_target := Target |}, self).

(** [return axi_ss.out[port].out<T, Target>();] *)
Definition out (T : Type) (Target : target) (port : Z)
  : method (axi_stream_switch.handle T) :=
  fun self =>
    _ <- axi_stream_switch.select (axi_stream_switch.out (axi_ss self)) port ;;
    Ok ({| axi_stream_switch.h_direction := axi_stream_switch.output;
           axi_stream_switch.h_port := port;
           axi_stream_switch.h_target := Target |}, self).

(** [void run() { }] *)
Definition run : method unit :=
  fun self => Ok (tt, self).

End tile_base.

(** The array of a [cascade_stream<Geography>] has the bound its type
    gives it, whatever its pipes hold. *)
Definition has_geography (g : Geography) (cs : cascade_stream) : Prop :=
  Z.of_nat (length (cascade_stream_pipes cs)) = cascade_stream_pipes_bound g.

(** The serpentine offset of a column within its row. *)
Definition serpentine_offset (g : Geography) (x y : Z) : Z :=
  if Z.odd y then x_max g - x else x.

(** [U] comes right after [T] in the serpentine order. *)
Definition follows (g : Geography) (T U : Z * Z) : Prop :=
  exists before after : list (Z * Z),
    serpentine g = before ++ T :: U :: after.

(** ** tests/acap/cascade_stream.cpp: the program of a tile *)

(** An operation of a tile on the cascade stream. *)
Inductive action : Set :=
| cs_read (slot : Z)            (* [cs_in.read()], on the pipe of the slot *)
| cs_write (slot : Z) (v : Z).  (* [cs_out << v], on the pipe of the slot *)

(** [tile::run] of the tile [(X, Y)], as the operations on the cascade
    stream it goes through, in order: unless it is at the start of the
    cascade it reads its cascade input, and unless it is at the end of the
    cascade it writes [t::x*0x1000 + t::y] to its cascade output, both
    through blocking accessors.  The accessors and the value do not
    depend on what the pipes hold, so they are computed here. *)
Definition tile_run (g : Geography) (cs : cascade_stream) (X Y : Z)
  : res (list action) :=
  rd <- (if negb (at_cascade_start g X Y)
         then cs_in <- get_cascade_stream_in g cs blocking_pipe X Y ;;
              Ok [cs_read (acc_slot cs_in)]
         else Ok []) ;;
  wr <- (if negb (at_cascade_end g X Y)
         then cs_out <- get_cascade_stream_out g cs blocking_pipe X Y ;;
              m <- Int.mul X 0x1000 ;;
              v <- Int.add m Y ;;
              Ok [cs_write (acc_slot cs_out) v]
         else Ok []) ;;
  Ok (rd ++ wr).

(** ** The array of tiles and its run *)

(** Replace the element of rank [n]; nothing changes when there is no
    such element. *)
Fixpoint set_nth {A : Type} (l : list A) (n : nat) (a : A) : list A :=
  match l, n with
  | [], _ => []
  | _ :: l', O => a :: l'
  | b :: l', S n' => b :: set_nth l' n' a
  end.

Fixpoint map_res {A B : Type} (f : A -> res B) (l : list A) : res (list B) :=
  match l with
  | [] => Ok []
  | a :: l' =>
      b <- f a ;;
      bs <- map_res f l' ;;
      Ok (b :: bs)
  end.

(** The thread of a tile: the tile, and what is left of its program. *)
Record tile_thread : Set := {
  th_tile : Z * Z;
  th_todo : list action
}.

(** Modelled from the spec: the array (2, 4.4); [array.hpp] is not part of
    the sources at hand.  One cascade stream is shared by the tiles, one
    thread runs the program of each tile; [arr_read] is the record of the
    values read so far, each with the tile that read it. *)
Record me_array : Set := {
  arr_cs : cascade_stream;
  arr_tiles : list tile_thread;
  arr_read : list ((Z * Z) * Z)
}.

(** Modelled from the spec: the array before its threads start (4.4),
    with one tile per coordinate, here in serpentine order, and a
    default-constructed cascade stream. *)
Definition me_array_start (g : Geography) : res me_array :=
  let cs := new_cascade_stream g in
  ths <- map_res (fun T => todo <- tile_run g cs (fst T) (snd T) ;;
                           Ok {| th_tile := T; th_todo := todo |})
                 (serpentine g) ;;
  Ok {| arr_cs := cs; arr_tiles := ths; arr_read := [] |}.

(** One step of the thread of rank [i]: its next operation, when the pipe
    lets a blocking access through; [None] when the thread has finished
    or is suspended. *)
Definition step_thread (i : nat) (a : me_array) : option me_array :=
  let pipes := cascade_stream_pipes (arr_cs a) in
  match nth_error (arr_tiles a) i with
  | None => None
  | Some th =>
      match th_todo th with
      | [] => None
      | cs_read k :: rest =>
          match subscript pipes k with
          | Fail _ => None
          | Ok p =>
              match pipe_read blocking_pipe p with
              | Done (Some v) p' =>
                  Some {| arr_cs := {| cascade_stream_pipes :=
                                         set_nth pipes (Z.to_nat k) p' |};
                          arr_tiles :=
                            set_nth (arr_tiles a) i
                              {| th_tile := th_tile th; th_todo := rest |};
                          arr_read := arr_read a ++ [(th_tile th, v)] |}
              | _ => None
              end
          end
      | cs_write k v :: rest =>
          match subscript pipes k with
          | Fail _ => None
          | Ok p =>
              match pipe_write blocking_pipe v p with
              | Done true p' =>
                  Some {| arr_cs := {| cascade_stream_pipes :=
                                         set_nth pipes (Z.to_nat k) p' |};
                          arr_tiles :=
                            set_nth (arr_tiles a) i
                              {| th_tile := th_tile th; th_todo := rest |};
                          arr_read := arr_read a |}
              | _ => None
              end
          end
      end
  end.

(** The threads run concurrently: a step of the array is a step of any one
    of its threads. *)
Definition array_step (a a' : me_array) : Prop :=
  exists i : nat, step_thread i a = Some a'.

(** [n] steps of the array. *)
Inductive array_run : me_array -> nat -> me_array -> Prop :=
| run_here (a : me_array) : array_run a 0 a
| run_more (a a' a'' : me_array) (n : nat) :
    array_run a n a' -> array_step a' a'' -> array_run a (S n) a''.

(** Every thread has finished: the array can be joined. *)
Definition all_finished (a : me_array) : Prop :=
  forall th : tile_thread, In th (arr_tiles a) -> th_todo th = [].

(** The steps of a given schedule, a list of ranks of threads. *)
Fixpoint run_schedule (schedule : list nat) (a : me_array) : option me_array :=
  match schedule with
  | [] => Some a
  | i :: schedule' =>
      match step_thread i a with
      | Some a' => run_schedule schedule' a'
      | None => None
      end
  end.

(** The value a tile sends down the cascade: [t::x*0x1000 + t::y]. *)
Definition tile_value (T : Z * Z) : Z := fst T * 0x1000 + snd T.

(** The tile of rank [r] in the serpentine order. *)
Definition tile_at (g : Geography) (r : nat) : Z * Z :=
  nth r (serpentine g) (0, 0).

(** The program of the tile of rank [r], by its rank: a read of slot [r]
    unless it is the first tile, then a write of its value to slot
    [r + 1] unless it is the last one. *)
Definition chain_program (g : Geography) (r : nat) : list action :=
  (if (r =? 0)%nat then [] else [cs_read (Z.of_nat r)])
  ++ (if (S r =? length (serpentine g))%nat then []
      else [cs_write (Z.of_nat (S r)) (tile_value (tile_at g r))]).

(** What the thread of rank [r] still has to do. *)
Definition todo_of (a : me_array) (r : nat) : list action :=
  match nth_error (arr_tiles a) r with
  | Some th => th_todo th
  | None => []
  end.

(** What the pipe of slot [k] holds. *)
Definition slot_content (a : me_array) (k : nat) : list Z :=
  match nth_error (cascade_stream_pipes (arr_cs a)) k with
  | Some p => content p
  | None => []
  end.

Definition is_read (act : action) : bool :=
  match act with
  | cs_read _ => true
  | cs_write _ _ => false
  end.

Definition wants_read (todo : list action) : bool := existsb is_read todo.

Definition wants_write (todo : list action) : bool :=
  existsb (fun act => negb (is_read act)) todo.

(** The operations the threads still have to do, all together. *)
Definition work_left (a : me_array) : nat :=
  list_sum (map (fun th => length (th_todo th)) (arr_tiles a)).

(** One read by each tile but the first of the chain, of the value of the
    tile before it. *)
Definition expected_reads (g : Geography) : list ((Z * Z) * Z) :=
  combine (tl (serpentine g)) (map tile_value (serpentine g)).

(** What holds of the array all along its run: the pipe of slot [j + 1]
    holds the value of the tile of rank [j] from the moment that tile has
    written it to the moment the next tile reads it, and is empty
    otherwise; a tile does not read before the tile before it has
    written. *)
Definition array_inv (g : Geography) (a : me_array) : Prop :=
  length (cascade_stream_pipes (arr_cs a)) = S (length (serpentine g)) /\
  (forall p : static_pipe,
      In p (cascade_stream_pipes (arr_cs a)) -> capacity p = 4%nat) /\
  length (arr_tiles a) = length (serpentine g) /\
  (forall (r : nat) (th : tile_thread),
      nth_error (arr_tiles a) r = Some th ->
      th_tile th = tile_at g r /\
      exists before : list action, chain_program g r = before ++ th_todo th) /\
  (forall k : nat,
      slot_content a k
      = match k with
        | O => []
        | S j => if negb (wants_write (todo_of a j)) && wants_read (todo_of a k)
                 then [tile_value (tile_at g j)] else []
        end) /\
  (forall j : nat,
      wants_write (todo_of a j) = true -> wants_read (todo_of a (S j)) = true) /\
  (exists ranks : list nat,
      arr_read a
      = map (fun r => (tile_at g r, tile_value (tile_at g (pred r)))) ranks /\
      NoDup ranks /\
      forall r : nat,
        In r ranks
        <-> (1 <= r < length (serpentine g))%nat /\
            wants_read (todo_of a r) = false).

(** ** tests/acap/cascade_pipeliner.cpp: the pipeline on the host *)

Section Pipeline.

(** The values that flow through a pipeline.  The stages of the source
    are generic lambdas, applied to whatever the stage before returns;
    here they are functions on one domain of values. *)
Variable V : Type.

(** [pipeline_executor<stage_number>(input, stages)]: the [stage_number]
    first stages applied to [input].  [hana::at_c] on a stage the tuple
    does not have does not compile: [None]. *)
Fixpoint pipeline_executor (stage_number : nat) (input : V)
    (stages : list (V -> V)) : option V :=
  match stage_number with
  | O => Some input
  | S n =>
      match nth_error stages n with
      | Some stage => option_map stage (pipeline_executor n input stages)
      | None => None
      end
  end.

(** [host_pipeliner(stages...)]: the function that runs all the stages. *)
Definition host_pipeliner (stages : list (V -> V)) : V -> option V :=
  fun input => pipeline_executor (length stages) input stages.

End Pipeline.

Arguments pipeline_executor {V} stage_number input stages.
Arguments host_pipeliner {V} stages input.

(** ** graphics.hpp: the grid of frames, the grid of images *)

Module graphics.

Import Stdlib.Strings.String.

(** The C++ exceptions the code can throw. *)
Inductive exn : Set :=
| out_of_range             (* [std::out_of_range], from [std::vector::at] *)
| bad_array_new_length     (* from [new T[n]] with a negative [n] *)
| bad_function_call.       (* from calling an empty [std::function] *)

(** What a member function does: it returns, it throws, or it runs into
    undefined behaviour. *)
Inductive outcome (A : Type) : Type :=
| Return (a : A)
| Throw (e : exn)
| Undefined (f : fault).

Arguments Return {A} a.
Arguments Throw {A} e.
Arguments Undefined {A} f.

Definition and_then {A B : Type} (o : outcome A) (k : A -> outcome B)
  : outcome B :=
  match o with
  | Return a => k a
  | Throw e => Throw e
  | Undefined f => Undefined f
  end.

Notation "x <~ o ;; k" := (and_then o (fun x => k))
  (at level 61, o at next level, right associativity).

(** An [int] computation inside a member function. *)
Definition int (r : res Z) : outcome Z :=
  match r with
  | Ok z => Return z
  | Fail f => Undefined f
  end.

(** [for (int i = lo; i < hi; ++i) body]: [count] more rounds from [i]. *)
Fixpoint for_count {S : Type} (count : nat) (i : Z)
    (body : Z -> S -> outcome S) (s : S) : outcome S :=
  match count with
  | O => Return s
  | Datatypes.S count' =>
      s' <~ body i s ;;
      for_count count' (i + 1) body s'
  end.

Definition for_int {S : Type} (lo hi : Z) (body : Z -> S -> outcome S)
    (s : S) : outcome S :=
  for_count (Z.to_nat (hi - lo)) lo body s.

(** [v.at(i)] with an [int] index: the conversion to [size_t] sends a
    negative index beyond any size. *)
Definition vector_at {A : Type} (v : list A) (i : Z) : outcome A :=
  if i <? 0 then Throw out_of_range
  else match nth_error v (Z.to_nat i) with
       | Some a => Return a
       | None => Throw out_of_range
       end.

(** [operator<<] of an [int] into a stream: its decimal writing. *)
Definition decimal (z : Z) : string :=
  DecimalString.NilZero.string_of_int (Z.to_int z).

Inductive ShadowType : Set :=
| SHADOW_ETCHED_IN     (* what a new [Gtk::Frame] has *)
| SHADOW_ETCHED_OUT.

(** A [Gtk::Frame], for what the code sets of it; [child] is the rank in
    [images] of the image the frame holds. *)
Record Frame : Set := {
  label : string;
  shadow_type : ShadowType;
  border_width : Z;
  child : option nat
}.

(** [Gtk::Frame(label)] *)
Definition new_Frame (s : string) : Frame :=
  {| label := s; shadow_type := SHADOW_ETCHED_IN; border_width := 0;
     child := None |}.

Definition set_shadow_type (t : ShadowType) (f : Frame) : Frame :=
  {| label := label f; shadow_type := t; border_width := border_width f;
     child := child f |}.

Definition set_border_width (w : Z) (f : Frame) : Frame :=
  {| label := label f; shadow_type := shadow_type f; border_width := w;
     child := child f |}.

(** [Gtk::Bin::add]: a frame holds one widget; adding to a frame that
    holds one already is refused by GTK. *)
Definition add (image : nat) (f : Frame) : Frame :=
  match child f with
  | None => {| label := label f; shadow_type := shadow_type f;
               border_width := border_width f; child := Some image |}
  | Some _ => f
  end.

(** What the [Gtk::Grid] holds: frames, each by its rank in [frames],
    attached at a cell with a span, and the close button. *)
Inductive grid_child : Set :=
| attach (frame : nat) (left top width height : Z)
| add_close_button.

(** [frame_grid], for its frames, its grid and its sizes; the window, the
    scroll bars and the signals of GTK are left out. *)
Record frame_grid : Set := {
  grid : list grid_child;
  frames : list Frame;
  nx : Z;
  ny : Z;
  done : bool
}.

(** ["Tile(" << x << ',' << y << ')'] *)
Definition tile_label (x y : Z) : string :=
  "Tile(" ++ decimal x ++ "," ++ decimal y ++ ")".

(** The body of the loops of the constructor of [frame_grid]. *)
Definition emplace_frame (x y : Z) (fg : frame_grid) : outcome frame_grid :=
  let f := set_border_width 1
             (set_shadow_type SHADOW_ETCHED_OUT (new_Frame (tile_label x y))) in
  t <~ int (Int.sub (ny fg) y) ;;
  top <~ int (Int.sub t 1) ;;
  Return {| grid := grid fg ++ [attach (List.length (frames fg)) x top 1 1];
            frames := frames fg ++ [f];
            nx := nx fg; ny := ny fg; done := done fg |}.

(** [frame_grid(int nx, int ny)] *)
Definition new_frame_grid (nx ny : Z) : outcome frame_grid :=
  fg <~ for_int 0 ny (fun y => for_int 0 nx (fun x => emplace_frame x y))
          {| grid := []; frames := []; nx := nx; ny := ny; done := false |} ;;
  Return {| grid := grid fg ++ [add_close_button]; frames := frames fg;
            nx := nx; ny := ny; done := done fg |}.

(** [get_frame(int x, int y)]: [frames.at(x + nx*y)], a reference to a
    frame, here its rank in [frames]. *)
Definition get_frame (fg : frame_grid) (x y : Z) : outcome nat :=
  m <~ int (Int.mul (nx fg) y) ;;
  i <~ int (Int.add x m) ;;
  _ <~ vector_at (frames fg) i ;;
  Return (Z.to_nat i).

(** ** [image_grid] *)

(** A [Gtk::Image] showing a [Gdk::Pixbuf]: the size of the pixel buffer
    it shows and the RGB bytes the buffer was scaled from, [None] for a
    byte that was never written; the blank buffer of the constructor is
    made from no bytes.  The scaling of GDK is left out. *)
Record Image : Set := {
  pix_width : Z;
  pix_height : Z;
  pix_from : option (list (option Z))
}.

(** The function object [update_tile_data_image] submits, for what it
    captures: the tile and the bytes [d]. *)
Record work : Set := {
  w_x : Z;
  w_y : Z;
  w_d : list (option Z)
}.

(** [image_grid : frame_grid]; [emitted] counts the signals of
    [dispatcher] emitted and not handled yet. *)
Record image_grid : Set := {
  base : frame_grid;
  images : list Image;
  image_x : Z;
  image_y : Z;
  zoom : Z;
  work_to_dispatch : option work;
  emitted : nat
}.

Definition with_frames (fs : list Frame) (fg : frame_grid) : frame_grid :=
  {| grid := grid fg; frames := fs; nx := nx fg; ny := ny fg;
     done := done fg |}.

(** The body of the loops of the constructor of [image_grid]. *)
Definition emplace_image (x y : Z) (ig : image_grid) : outcome image_grid :=
  f <~ get_frame (base ig) x y ;;
  w <~ int (Int.mul (image_x ig) (zoom ig)) ;;
  h <~ int (Int.mul (image_y ig) (zoom ig)) ;;
  let pb := {| pix_width := w; pix_height := h; pix_from := None |} in
  let fs := match nth_error (frames (base ig)) f with
            | Some fr =>
                set_nth (frames (base ig)) f (add (List.length (images ig)) fr)
            | None => frames (base ig)
            end in
  Return {| base := with_frames fs (base ig);
            images := images ig ++ [pb];
            image_x := image_x ig; image_y := image_y ig; zoom := zoom ig;
            work_to_dispatch := work_to_dispatch ig;
            emitted := emitted ig |}.

(** [image_grid(int nx, int ny, int image_x, int image_y, int zoom)] *)
Definition new_image_grid (nx ny image_x image_y zoom : Z)
  : outcome image_grid :=
  fg <~ new_frame_grid nx ny ;;
  for_int 0 ny (fun y => for_int 0 nx (fun x => emplace_image x y))
    {| base := fg; images := [];
       image_x := image_x; image_y := image_y; zoom := zoom;
       work_to_dispatch := None; emitted := 0 |}.

(** [new std::uint8_t[n]]: [n] bytes that hold nothing yet. *)
Definition new_bytes (n : Z) : outcome (list (option Z)) :=
  if n <? 0 then Throw bad_array_new_length
  else Return (repeat None (Z.to_nat n)).

(** [output(row, col)[c] = v], on the [mdspan] of extents [image_y] by
    [image_x] laid over the bytes [d], three bytes for each pixel. *)
Definition store (ig : image_grid) (row col c v : Z) (d : list (option Z))
  : outcome (list (option Z)) :=
  if (0 <=? row) && (row <? image_y ig) && (0 <=? col) && (col <? image_x ig)
  then
    let offset := 3 * (row * image_x ig + col) + c in
    if offset <? Z.of_nat (List.length d)
    then Return (set_nth d (Z.to_nat offset) (Some v))
    else Undefined SubscriptOutOfArray
  else Undefined SubscriptOutOfArray.

Section Drawing.

(** The values of the data to draw. *)
Variable value : Type.

(** The grey level of a value between the minimum and the maximum,
    [(static_cast<double>(v - min_value))*255/(max_value - min_value)]
    converted to [std::uint8_t]: floating point, left as it is. *)
Variable grey : value -> value -> value -> Z.

(** The body of the loops of [update_tile_data_image]. *)
Definition draw_pixel (ig : image_grid) (data : Z -> Z -> value)
    (min_value max_value : value) (j i : Z) (d : list (option Z))
  : outcome (list (option Z)) :=
  let v := grey (data j i) min_value max_value in
  t <~ int (Int.sub (image_y ig) 1) ;;
  row <~ int (Int.sub t j) ;;
  d0 <~ store ig row i 0 v d ;;
  d1 <~ store ig row i 1 v d0 ;;
  store ig row i 2 v d1.

(** [update_tile_data_image(x, y, data, min_value, max_value)] up to the
    submission: the function object it makes.  [data] is the [mdspan],
    of extents [extent0] by [extent1] once cast to [int]. *)
Definition update_tile_data_image (ig : image_grid) (x y : Z)
    (data : Z -> Z -> value) (extent0 extent1 : Z)
    (min_value max_value : value) : outcome work :=
  s <~ int (Int.mul 3 (image_x ig)) ;;
  size <~ int (Int.mul s (image_y ig)) ;;
  d <~ new_bytes size ;;
  d' <~ for_int 0 (Z.min extent0 (image_y ig))
          (fun j => for_int 0 (Z.min extent1 (image_x ig))
                      (fun i => draw_pixel ig data min_value max_value j i))
          d ;;
  Return {| w_x := x; w_y := y; w_d := d' |}.


End Drawing.









End graphics.

(** The frame [frame_grid] makes for the tile [(x, y)]. *)
Definition made_frame (x y : Z) : graphics.Frame :=
  {| graphics.label := graphics.tile_label x y;
     graphics.shadow_type := graphics.SHADOW_ETCHED_OUT;
     graphics.border_width := 1;
     graphics.child := None |}.

(** The frame of rank [k] in a grid of [w] columns. *)
Definition frame_of_rank (w k : nat) : graphics.Frame :=
  made_frame (Z.of_nat (k mod w)) (Z.of_nat (k / w)).

(** The cell the frame of rank [k] is attached to. *)
Definition cell_of_rank (w : nat) (ny : Z) (k : nat) : graphics.grid_child :=
  graphics.attach k (Z.of_nat (k mod w)) (ny - Z.of_nat (k / w) - 1) 1 1.

(** The first [count] frames are made, in the order of the loops. *)
Definition frames_made (fg : graphics.frame_grid) (count : nat) : Prop :=
  graphics.frames fg
  = map (frame_of_rank (Z.to_nat (graphics.nx fg))) (seq 0 count) /\
  graphics.grid fg
  = map (cell_of_rank (Z.to_nat (graphics.nx fg)) (graphics.ny fg))
        (seq 0 count).

(** The grid of images when the first [count] images are made. *)
Definition images_made (nx ny image_x image_y zoom : Z) (count : nat)
  : graphics.image_grid :=
  let w := Z.to_nat nx in
  let n := (w * Z.to_nat ny)%nat in
  {| graphics.base :=
       {| graphics.grid :=
            map (cell_of_rank w ny) (seq 0 n) ++ [graphics.add_close_button];
          graphics.frames :=
            map (fun k => if (k <? count)%nat
                          then graphics.add k (frame_of_rank w k)
                          else frame_of_rank w k) (seq 0 n);
          graphics.nx := nx; graphics.ny := ny; graphics.done := false |};
     graphics.images :=
       repeat {| graphics.pix_width := image_x * zoom;
                 graphics.pix_height := image_y * zoom;
                 graphics.pix_from := None |} count;
     graphics.image_x := image_x; graphics.image_y := image_y;
     graphics.zoom := zoom;
     graphics.work_to_dispatch := None; graphics.emitted := 0 |}.

(** The byte of rank [n] of the bytes [update_tile_data_image] fills,
    when the rows of the data before row [rows] are drawn, and the
    pixels before column [cols] of row [rows]: the grey level of a pixel
    that is drawn, nothing otherwise.  Row [j] of the data goes to row
    [image_y - 1 - j] of the image. *)
Definition byte_drawn {value : Type} (grey : value -> value -> value -> Z)
    (ig : graphics.image_grid) (data : Z -> Z -> value)
    (extent1 : Z) (min_value max_value : value) (rows cols : Z) (n : nat)
  : option Z :=
  let pixel := Z.of_nat n / 3 in
  let col := pixel mod graphics.image_x ig in
  let j := graphics.image_y ig - 1 - pixel / graphics.image_x ig in
  if ((j <? rows) && (col <? Z.min extent1 (graphics.image_x ig)))
     || ((j =? rows) && (col <? cols))
  then Some (grey (data j col) min_value max_value)
  else None.


(** A grid of images of 3 by 2 pixels, to draw into. *)
Definition small_image_grid : graphics.image_grid :=
  {| graphics.base :=
       {| graphics.grid := []; graphics.frames := [];
          graphics.nx := 0; graphics.ny := 0; graphics.done := false |};
     graphics.images := [];
     graphics.image_x := 3; graphics.image_y := 2; graphics.zoom := 1;
     graphics.work_to_dispatch := None; graphics.emitted := 0 |}.

(** The character [c] does not occur in the string [s]. *)
Fixpoint lacks (c : Ascii.ascii) (s : String.string) : Prop :=
  match s with
  | String.EmptyString => True
  | String.String a s' => a <> c /\ lacks c s'
  end.

(** * Properties *)

(** ** [int] arithmetic that stays in range *)

Lemma checked_in_range (z : Z) :
  Int.min_int <= z <= Int.max_int -> Int.checked z = Ok z.
Proof.
  intros [Hlo Hhi]. unfold Int.checked, Int.in_range.
  apply Z.leb_le in Hlo. apply Z.leb_le in Hhi.
  now rewrite Hlo, Hhi.
Qed.

Lemma max_int_value : Int.max_int = 2147483647.
Proof. reflexivity. Qed.

Lemma min_int_value : Int.min_int = -2147483648.
Proof. reflexivity. Qed.

Lemma low_bit_odd (y : Z) : Int.to_bool (Int.and y 1) = Z.odd y.
Proof.
  unfold Int.to_bool, Int.and.
  change 1 with (Z.ones 1).
  rewrite Z.land_ones by lia.
  change (2 ^ 1) with 2.
  rewrite Zmod_odd.
  now destruct (Z.odd y).
Qed.

Lemma subscript_in_bounds {A : Type} (a : list A) (i : Z) :
  0 <= i < Z.of_nat (length a) -> exists v, subscript a i = Ok v.
Proof.
  intros [Hlo Hhi]. unfold subscript.
  destruct (Z.ltb_spec i 0) as [Hneg | _]; [lia |].
  destruct (nth_error a (Z.to_nat i)) as [v |] eqn:Hnth.
  - now exists v.
  - apply nth_error_None in Hnth. lia.
Qed.

Section Addressing.

Variable g : Geography.
Hypothesis Hg : geo_ok g.

Lemma offset_range (x y : Z) :
  valid_tile g x y -> 0 <= serpentine_offset g x y <= x_max g.
Proof.
  unfold valid_tile, serpentine_offset. intros [Hx _].
  destruct (Z.odd y); lia.
Qed.

Lemma row_offset_value (x y : Z) :
  valid_tile g x y -> row_offset g x y = Ok (serpentine_offset g x y).
Proof.
  intros Hv. pose proof (offset_range x y Hv) as Ho.
  destruct Hg as (_ & _ & Hxm & _ & Hxs & Hys & Hmax).
  unfold row_offset, serpentine_offset in *.
  rewrite low_bit_odd. destruct (Z.odd y); [| reflexivity].
  unfold Int.sub. apply checked_in_range.
  rewrite max_int_value in *. rewrite min_int_value. nia.
Qed.

(** Every slot a valid tile reaches lies below the number of tiles. *)
Lemma slot_range (x y : Z) :
  valid_tile g x y ->
  0 <= x_size g * y /\
  0 <= x_size g * y + serpentine_offset g x y <= x_size g * y_size g - 1.
Proof.
  intros Hv. pose proof (offset_range x y Hv) as Ho.
  destruct Hg as (_ & _ & Hxm & _ & Hxs & Hys & _).
  destruct Hv as [_ Hy]. nia.
Qed.

Lemma in_index_value (x y : Z) :
  valid_tile g x y ->
  cascade_stream_in_index g x y
  = Ok (x_size g * y + serpentine_offset g x y).
Proof.
  intros Hv. pose proof (slot_range x y Hv) as [Hm Hs].
  pose proof (offset_range x y Hv) as Ho.
  destruct Hg as (_ & _ & Hxm & _ & Hxs & Hys & Hmax).
  rewrite max_int_value in Hmax.
  unfold cascade_stream_in_index, Int.mul, Int.add.
  rewrite checked_in_range by (rewrite max_int_value, min_int_value; lia).
  cbn [bind]. rewrite (row_offset_value x y Hv). cbn [bind].
  apply checked_in_range. rewrite max_int_value, min_int_value. lia.
Qed.

Lemma out_index_value (x y : Z) :
  valid_tile g x y ->
  cascade_stream_out_index g x y
  = Ok (x_size g * y + serpentine_offset g x y + 1).
Proof.
  intros Hv. pose proof (slot_range x y Hv) as [Hm Hs].
  pose proof (offset_range x y Hv) as Ho.
  destruct Hg as (_ & _ & Hxm & _ & Hxs & Hys & Hmax).
  rewrite max_int_value in Hmax.
  unfold cascade_stream_out_index, Int.mul, Int.add.
  rewrite checked_in_range by (rewrite max_int_value, min_int_value; lia).
  cbn [bind].
  rewrite checked_in_range by (rewrite max_int_value, min_int_value; lia).
  cbn [bind]. rewrite (row_offset_value x y Hv). cbn [bind].
  rewrite checked_in_range by (rewrite max_int_value, min_int_value; lia).
  f_equal. lia.
Qed.

End Addressing.

(** ** The two accessors on a valid tile *)

Section Accessors.

Variable g : Geography.
Variable cs : cascade_stream.
Hypothesis Hg : geo_ok g.
Hypothesis Hcs : has_geography g cs.

Lemma get_in_value (Target : target) (x y : Z) :
  valid_tile g x y ->
  get_cascade_stream_in g cs Target x y
  = Ok {| acc_slot := x_size g * y + serpentine_offset g x y;
          acc_mode := read; acc_target := Target |}.
Proof.
  intros Hv. unfold get_cascade_stream_in.
  rewrite (in_index_value g Hg x y Hv). cbn [bind].
  pose proof (slot_range g Hg x y Hv) as [_ Hs].
  destruct (subscript_in_bounds (cascade_stream_pipes cs)
              (x_size g * y + serpentine_offset g x y)) as [p Hp].
  - rewrite Hcs. unfold cascade_stream_pipes_bound. lia.
  - now rewrite Hp.
Qed.

Lemma get_out_value (Target : target) (x y : Z) :
  valid_tile g x y ->
  get_cascade_stream_out g cs Target x y
  = Ok {| acc_slot := x_size g * y + serpentine_offset g x y + 1;
          acc_mode := write; acc_target := Target |}.
Proof.
  intros Hv. unfold get_cascade_stream_out.
  rewrite (out_index_value g Hg x y Hv). cbn [bind].
  pose proof (slot_range g Hg x y Hv) as [_ Hs].
  destruct (subscript_in_bounds (cascade_stream_pipes cs)
              (x_size g * y + serpentine_offset g x y + 1)) as [p Hp].
  - rewrite Hcs. unfold cascade_stream_pipes_bound. lia.
  - now rewrite Hp.
Qed.

End Accessors.

Lemma layout_size_ok (X Y : Z) :
  0 < X -> 0 < Y -> X * Y + 1 <= Int.max_int -> geo_ok (layout_size X Y).
Proof.
  intros HX HY Hmax. unfold geo_ok, layout_size; cbn.
  repeat split; try reflexivity; assumption.
Qed.

Lemma new_cascade_stream_geography (g : Geography) :
  geo_ok g -> has_geography g (new_cascade_stream g).
Proof.
  intros (_ & _ & _ & _ & Hxs & Hys & _).
  unfold has_geography, new_cascade_stream, cascade_stream_pipes_bound; cbn.
  rewrite repeat_length. rewrite Z2Nat.id; nia.
Qed.

(** Closes [geo_ok] on a concrete geography by evaluating it. *)
Ltac geo_ok_by_computation :=
  unfold geo_ok; cbn; repeat apply conj;
  solve [reflexivity | lia | vm_compute; discriminate].

(** C1: on every tile [(x, y)] with [0 <= x <= x_max] and
    [0 <= y < y_size], [get_cascade_stream_in] returns a read accessor on
    the slot [x_size * y + (x_max - x)] when [y] is odd and on the slot
    [x_size * y + x] when [y] is even; on the 3 by 2 array the slots of
    (0,0), (1,0), (2,0), (2,1), (1,1), (0,1) are 0, 1, 2, 3, 4, 5. *)
Theorem get_cascade_stream_in_slot :
  (forall (g : Geography) (cs : cascade_stream) (Target : target) (x y : Z),
      geo_ok g -> has_geography g cs ->
      0 <= x <= x_max g -> 0 <= y < y_size g ->
      get_cascade_stream_in g cs Target x y
      = Ok {| acc_slot := x_size g * y + (if Z.odd y then x_max g - x else x);
              acc_mode := read; acc_target := Target |})
  /\
  (forall Target : target,
      let g := layout_size 3 2 in
      map (fun t => get_cascade_stream_in g (new_cascade_stream g) Target
                      (fst t) (snd t))
          [(0, 0); (1, 0); (2, 0); (2, 1); (1, 1); (0, 1)]
      = map (fun i => Ok {| acc_slot := i; acc_mode := read;
                            acc_target := Target |})
            [0; 1; 2; 3; 4; 5]).
Proof.
  split.
  - intros g cs Target x y Hg Hcs Hx Hy.
    apply (get_in_value g cs Hg Hcs Target x y). now split.
  - intros Target g. reflexivity.
Qed.

Lemma get_cascade_stream_in_slot_witness :
  get_cascade_stream_in (layout_size 3 2) (new_cascade_stream (layout_size 3 2))
    blocking_pipe 2 1
  = Ok {| acc_slot := 3; acc_mode := read; acc_target := blocking_pipe |}.
Proof.
  apply (proj1 get_cascade_stream_in_slot (layout_size 3 2)
           (new_cascade_stream (layout_size 3 2)) blocking_pipe 2 1).
  - geo_ok_by_computation.
  - reflexivity.
  - cbn; lia.
  - cbn; lia.
Defined.

(** C2: on every tile [(x, y)] with [0 <= x <= x_max] and
    [0 <= y < y_size], on even and on odd rows alike, the slot of the
    accessor [get_cascade_stream_out] returns is the slot of the accessor
    [get_cascade_stream_in] returns, plus one. *)
Theorem get_cascade_stream_out_slot :
  forall (g : Geography) (cs : cascade_stream) (Tin Tout : target) (x y : Z),
    geo_ok g -> has_geography g cs ->
    0 <= x <= x_max g -> 0 <= y < y_size g ->
    exists i : Z,
      get_cascade_stream_in g cs Tin x y
      = Ok {| acc_slot := i; acc_mode := read; acc_target := Tin |} /\
      get_cascade_stream_out g cs Tout x y
      = Ok {| acc_slot := i + 1; acc_mode := write; acc_target := Tout |}.
Proof.
  intros g cs Tin Tout x y Hg Hcs Hx Hy.
  assert (Hv : valid_tile g x y) by now split.
  exists (x_size g * y + serpentine_offset g x y). split.
  - apply (get_in_value g cs Hg Hcs Tin x y Hv).
  - apply (get_out_value g cs Hg Hcs Tout x y Hv).
Qed.

Lemma get_cascade_stream_out_slot_witness :
  exists i : Z,
    get_cascade_stream_in (layout_size 3 2)
      (new_cascade_stream (layout_size 3 2)) blocking_pipe 1 1
    = Ok {| acc_slot := i; acc_mode := read; acc_target := blocking_pipe |} /\
    get_cascade_stream_out (layout_size 3 2)
      (new_cascade_stream (layout_size 3 2)) pipe_target 1 1
    = Ok {| acc_slot := i + 1; acc_mode := write; acc_target := pipe_target |}.
Proof.
  apply (get_cascade_stream_out_slot (layout_size 3 2)
           (new_cascade_stream (layout_size 3 2)) blocking_pipe pipe_target 1 1).
  - geo_ok_by_computation.
  - reflexivity.
  - cbn; lia.
  - cbn; lia.
Defined.

(** C10: on every tile [(x, y)] with [0 <= x <= x_max = x_size - 1] and
    [0 <= y <= y_size - 1], both accessors return without a fault, the
    slot of the input accessor lies in [[0, x_size * y_size - 1]], the
    slot of the output accessor lies in [[1, x_size * y_size]], and both
    subscripts fall inside the array of [x_size * y_size + 1] pipes. *)
Theorem cascade_accessors_in_bounds :
  forall (g : Geography) (cs : cascade_stream) (Tin Tout : target) (x y : Z),
    geo_ok g -> has_geography g cs ->
    0 <= x <= x_max g -> x_max g = x_size g - 1 ->
    0 <= y <= y_size g - 1 ->
    exists (ain aout : pipe_accessor) (pin pout : static_pipe),
      get_cascade_stream_in g cs Tin x y = Ok ain /\
      get_cascade_stream_out g cs Tout x y = Ok aout /\
      0 <= acc_slot ain <= x_size g * y_size g - 1 /\
      1 <= acc_slot aout <= x_size g * y_size g /\
      Z.of_nat (length (cascade_stream_pipes cs)) = x_size g * y_size g + 1 /\
      subscript (cascade_stream_pipes cs) (acc_slot ain) = Ok pin /\
      subscript (cascade_stream_pipes cs) (acc_slot aout) = Ok pout.
Proof.
  intros g cs Tin Tout x y Hg Hcs Hx _ Hy.
  assert (Hv : valid_tile g x y) by (split; lia).
  pose proof (slot_range g Hg x y Hv) as [_ Hs].
  assert (Hlen : Z.of_nat (length (cascade_stream_pipes cs))
                 = x_size g * y_size g + 1) by exact Hcs.
  destruct (subscript_in_bounds (cascade_stream_pipes cs)
              (x_size g * y + serpentine_offset g x y)) as [pin Hpin];
    [lia |].
  destruct (subscript_in_bounds (cascade_stream_pipes cs)
              (x_size g * y + serpentine_offset g x y + 1)) as [pout Hpout];
    [lia |].
  eexists _, _, pin, pout.
  split; [apply (get_in_value g cs Hg Hcs Tin x y Hv) |].
  split; [apply (get_out_value g cs Hg Hcs Tout x y Hv) |].
  cbn [acc_slot]. repeat split; try lia; assumption.
Qed.

Lemma cascade_accessors_in_bounds_witness :
  exists (ain aout : pipe_accessor) (pin pout : static_pipe),
    get_cascade_stream_in (layout_size 3 2)
      (new_cascade_stream (layout_size 3 2)) blocking_pipe 0 1 = Ok ain /\
    get_cascade_stream_out (layout_size 3 2)
      (new_cascade_stream (layout_size 3 2)) blocking_pipe 0 1 = Ok aout /\
    0 <= acc_slot ain <= 3 * 2 - 1 /\
    1 <= acc_slot aout <= 3 * 2 /\
    Z.of_nat (length (cascade_stream_pipes
                        (new_cascade_stream (layout_size 3 2)))) = 3 * 2 + 1 /\
    subscript (cascade_stream_pipes (new_cascade_stream (layout_size 3 2)))
      (acc_slot ain) = Ok pin /\
    subscript (cascade_stream_pipes (new_cascade_stream (layout_size 3 2)))
      (acc_slot aout) = Ok pout.
Proof.
  apply (cascade_accessors_in_bounds (layout_size 3 2)
           (new_cascade_stream (layout_size 3 2))
           blocking_pipe blocking_pipe 0 1).
  - geo_ok_by_computation.
  - reflexivity.
  - cbn; lia.
  - reflexivity.
  - cbn; lia.
Defined.

(** ** The serpentine order and the slots along it *)

Lemma parity_of_nat (n : nat) :
  Z.even (Z.of_nat n) = Nat.even n /\ Z.odd (Z.of_nat n) = Nat.odd n.
Proof.
  induction n as [| n [IHe IHo]].
  - split; reflexivity.
  - rewrite Nat2Z.inj_succ, Z.even_succ, Z.odd_succ.
    rewrite Nat.even_succ, Nat.odd_succ. now split.
Qed.

Lemma seq_from (a n : nat) : seq a n = map (Nat.add a) (seq 0 n).
Proof.
  revert a. induction n as [| n IH]; intros a; [reflexivity |].
  cbn [seq map]. rewrite Nat.add_0_r. f_equal.
  rewrite (IH (S a)), <- seq_shift, map_map.
  apply map_ext. intros k. lia.
Qed.

Lemma rev_seq (n : nat) :
  rev (seq 0 n) = map (fun k => (n - 1 - k)%nat) (seq 0 n).
Proof.
  induction n as [| n IH]; [reflexivity |].
  rewrite seq_S at 1. rewrite rev_app_distr. cbn [rev app Nat.add].
  rewrite IH. cbn [seq map]. f_equal; [lia |].
  rewrite <- seq_shift, map_map.
  apply map_ext. intros k. lia.
Qed.

Section Serpentine.

Variable g : Geography.
Hypothesis Hg : geo_ok g.

Let nx : nat := Z.to_nat (x_size g).
Let ny : nat := Z.to_nat (y_size g).

Lemma nx_size : Z.of_nat nx = x_size g.
Proof.
  destruct Hg as (_ & _ & _ & _ & Hxs & _). subst nx. lia.
Qed.

Lemma ny_size : Z.of_nat ny = y_size g.
Proof.
  destruct Hg as (_ & _ & _ & _ & _ & Hys & _). subst ny. lia.
Qed.

Lemma columns_spec (x : Z) : In x (columns g) <-> 0 <= x <= x_max g.
Proof.
  pose proof nx_size as Hnx.
  destruct Hg as (_ & _ & Hxm & _).
  unfold columns. fold nx. rewrite in_map_iff. split.
  - intros (k & <- & Hk). apply in_seq in Hk. lia.
  - intros Hx. exists (Z.to_nat x). split; [lia |].
    apply in_seq. lia.
Qed.

Lemma row_tiles_spec (r : nat) (x y : Z) :
  In (x, y) (row_tiles g r) <-> 0 <= x <= x_max g /\ y = Z.of_nat r.
Proof.
  unfold row_tiles. rewrite in_map_iff. split.
  - intros (c & Heq & Hc). inversion Heq; subst. split; [| reflexivity].
    apply columns_spec. destruct (Nat.even r); [assumption |].
    now apply in_rev.
  - intros [Hx ->]. exists x. split; [reflexivity |].
    apply columns_spec in Hx. destruct (Nat.even r); [assumption |].
    now apply in_rev in Hx.
Qed.

(** The serpentine order runs over the tiles of the array, and over
    nothing else. *)
Lemma serpentine_spec (x y : Z) :
  In (x, y) (serpentine g) <-> valid_tile g x y.
Proof.
  pose proof ny_size as Hny.
  unfold serpentine, valid_tile. fold ny. rewrite in_flat_map. split.
  - intros (r & Hr & Hin). apply in_seq in Hr.
    apply row_tiles_spec in Hin. lia.
  - intros [Hx Hy]. exists (Z.to_nat y). split.
    + apply in_seq. lia.
    + apply row_tiles_spec. lia.
Qed.

Lemma row_slots (r : nat) :
  (r < ny)%nat ->
  map (fun t => cascade_stream_in_index g (fst t) (snd t)) (row_tiles g r)
  = map (fun k => Ok (Z.of_nat k)) (seq (nx * r) nx).
Proof.
  intros Hr. pose proof nx_size as Hnx. pose proof ny_size as Hny.
  pose proof (parity_of_nat r) as [_ Hodd].
  assert (Hxm : x_max g = x_size g - 1) by apply Hg.
  unfold row_tiles. rewrite map_map. cbn [fst snd].
  rewrite (seq_from (nx * r) nx), map_map.
  destruct (Nat.even r) eqn:Hev.
  - unfold columns. fold nx. rewrite map_map.
    apply map_ext_in. intros k Hk. apply in_seq in Hk.
    rewrite (in_index_value g Hg) by (unfold valid_tile; lia).
    unfold serpentine_offset. rewrite Hodd, <- Nat.negb_even, Hev. cbn.
    f_equal. lia.
  - unfold columns. fold nx. rewrite <- map_rev, rev_seq, !map_map.
    apply map_ext_in. intros k Hk. apply in_seq in Hk.
    rewrite (in_index_value g Hg) by (unfold valid_tile; lia).
    unfold serpentine_offset. rewrite Hodd, <- Nat.negb_even, Hev. cbn.
    f_equal. lia.
Qed.

Lemma rows_slots (n : nat) :
  (n <= ny)%nat ->
  map (fun t => cascade_stream_in_index g (fst t) (snd t))
      (flat_map (row_tiles g) (seq 0 n))
  = map (fun k => Ok (Z.of_nat k)) (seq 0 (nx * n)).
Proof.
  induction n as [| n IH]; intros Hn.
  - rewrite Nat.mul_0_r. reflexivity.
  - rewrite seq_S, flat_map_app, map_app, IH by lia.
    cbn [flat_map Nat.add]. rewrite app_nil_r, row_slots by lia.
    rewrite Nat.mul_succ_r, seq_app, map_app. reflexivity.
Qed.

(** Along the serpentine order the input slots are 0, 1, 2, ... *)
Lemma serpentine_slots :
  map (fun t => cascade_stream_in_index g (fst t) (snd t)) (serpentine g)
  = map (fun k => Ok (Z.of_nat k)) (seq 0 (nx * ny)).
Proof.
  unfold serpentine. fold ny. now apply rows_slots.
Qed.

Lemma serpentine_length : length (serpentine g) = (nx * ny)%nat.
Proof.
  rewrite <- (length_map (fun t =>
                cascade_stream_in_index g (fst t) (snd t))).
  rewrite serpentine_slots, length_map. apply length_seq.
Qed.

(** The tile at rank [k] of the order has input slot [k]. *)
Lemma serpentine_rank (l1 l2 : list (Z * Z)) (t : Z * Z) :
  serpentine g = l1 ++ t :: l2 ->
  cascade_stream_in_index g (fst t) (snd t) = Ok (Z.of_nat (length l1)).
Proof.
  intros Hsplit.
  pose proof serpentine_slots as Hslots.
  pose proof serpentine_length as Hlen.
  rewrite Hsplit in Hslots, Hlen.
  rewrite length_app in Hlen. cbn [length] in Hlen.
  apply (f_equal (fun l => nth_error l (length l1))) in Hslots.
  rewrite map_app, nth_error_app2 in Hslots by (rewrite length_map; lia).
  rewrite length_map, Nat.sub_diag in Hslots. cbn [map nth_error] in Hslots.
  rewrite nth_error_map, nth_error_seq in Hslots.
  destruct (Nat.ltb_spec (length l1) (nx * ny)) as [_ | Hge]; [| lia].
  cbn in Hslots. now inversion Hslots.
Qed.

End Serpentine.

Lemma adjacent_slots (g : Geography) (cs : cascade_stream)
    (Tin Tout : target) (before after : list (Z * Z)) (T U : Z * Z) :
  geo_ok g -> has_geography g cs ->
  serpentine g = before ++ T :: U :: after ->
  exists i : Z,
    get_cascade_stream_out g cs Tout (fst T) (snd T)
    = Ok {| acc_slot := i; acc_mode := write; acc_target := Tout |} /\
    get_cascade_stream_in g cs Tin (fst U) (snd U)
    = Ok {| acc_slot := i; acc_mode := read; acc_target := Tin |}.
Proof.
  destruct T as [tx ty], U as [sx sy]. intros Hg Hcs Hsplit.
  cbn [fst snd].
  assert (HT : valid_tile g tx ty).
  { apply (serpentine_spec g Hg). rewrite Hsplit.
    apply in_or_app. right. now left. }
  assert (HS : valid_tile g sx sy).
  { apply (serpentine_spec g Hg). rewrite Hsplit.
    apply in_or_app. right. right. now left. }
  pose proof (serpentine_rank g Hg before ((sx, sy) :: after) (tx, ty))
    as HrT.
  pose proof (serpentine_rank g Hg (before ++ [(tx, ty)]) after (sx, sy))
    as HrS.
  cbn [fst snd] in HrT, HrS.
  rewrite <- app_assoc in HrS. specialize (HrS Hsplit).
  specialize (HrT Hsplit).
  rewrite (in_index_value g Hg tx ty HT) in HrT.
  rewrite (in_index_value g Hg sx sy HS) in HrS.
  injection HrT as HeT. injection HrS as HeS.
  rewrite length_app in HeS. cbn [length] in HeS.
  exists (x_size g * sy + serpentine_offset g sx sy). split.
  - rewrite (get_out_value g cs Hg Hcs Tout tx ty HT).
    f_equal. f_equal. lia.
  - apply (get_in_value g cs Hg Hcs Tin sx sy HS).
Qed.

Lemma has_successor (g : Geography) (T : Z * Z) :
  In T (serpentine g) -> T <> last (serpentine g) (0, 0) ->
  exists U : Z * Z, follows g T U.
Proof.
  intros Hin Hlast.
  destruct (in_split T (serpentine g) Hin) as (before & rest & Hsplit).
  destruct rest as [| U after].
  - exfalso. apply Hlast. rewrite Hsplit. symmetry. apply last_last.
  - exists U, before, after. exact Hsplit.
Qed.

(** The serpentine order visits no tile twice. *)
Lemma serpentine_NoDup (g : Geography) :
  geo_ok g -> NoDup (serpentine g).
Proof.
  intros Hg.
  apply (NoDup_map_inv
           (fun t => cascade_stream_in_index g (fst t) (snd t))).
  rewrite (serpentine_slots g Hg).
  apply NoDup_map_NoDup_ForallPairs; [| apply seq_NoDup].
  intros j k _ _ Heq. injection Heq as Heq. lia.
Qed.

(** C3: chain continuity.  Every tile [T] of the array that is not the
    last tile of the serpentine order has a successor in that order, and
    for the tile [U] that comes right after [T] the output accessor of
    [T] and the input accessor of [U] are on the same slot. *)
Theorem chain_continuity :
  forall (g : Geography) (cs : cascade_stream) (Tin Tout : target)
         (T : Z * Z),
    geo_ok g -> has_geography g cs ->
    In T (serpentine g) -> T <> last (serpentine g) (0, 0) ->
    (exists U : Z * Z, follows g T U) /\
    (forall U : Z * Z,
        follows g T U ->
        exists i : Z,
          get_cascade_stream_out g cs Tout (fst T) (snd T)
          = Ok {| acc_slot := i; acc_mode := write; acc_target := Tout |} /\
          get_cascade_stream_in g cs Tin (fst U) (snd U)
          = Ok {| acc_slot := i; acc_mode := read; acc_target := Tin |}).
Proof.
  intros g cs Tin Tout T Hg Hcs Hin Hlast. split.
  - now apply has_successor.
  - intros U (before & after & Hsplit).
    apply (adjacent_slots g cs Tin Tout before after T U Hg Hcs Hsplit).
Qed.

Lemma chain_continuity_witness :
  (exists U : Z * Z, follows (layout_size 3 2) (2, 0) U) /\
  (forall U : Z * Z,
      follows (layout_size 3 2) (2, 0) U ->
      exists i : Z,
        get_cascade_stream_out (layout_size 3 2)
          (new_cascade_stream (layout_size 3 2)) blocking_pipe
          (fst (2, 0)) (snd (2, 0))
        = Ok {| acc_slot := i; acc_mode := write;
                acc_target := blocking_pipe |} /\
        get_cascade_stream_in (layout_size 3 2)
          (new_cascade_stream (layout_size 3 2)) blocking_pipe
          (fst U) (snd U)
        = Ok {| acc_slot := i; acc_mode := read;
                acc_target := blocking_pipe |}).
Proof.
  apply (chain_continuity (layout_size 3 2)
           (new_cascade_stream (layout_size 3 2)) blocking_pipe blocking_pipe
           (2, 0)).
  - geo_ok_by_computation.
  - reflexivity.
  - cbn. right. right. left. reflexivity.
  - cbn. discriminate.
Defined.

(** ** The input slot as a bijection *)

Section Bijection.

Variable g : Geography.
Hypothesis Hg : geo_ok g.

Lemma offset_injective (x x' y : Z) :
  serpentine_offset g x y = serpentine_offset g x' y -> x = x'.
Proof.
  unfold serpentine_offset. destruct (Z.odd y); lia.
Qed.

Lemma in_index_injective (x y x' y' : Z) :
  valid_tile g x y -> valid_tile g x' y' ->
  cascade_stream_in_index g x y = cascade_stream_in_index g x' y' ->
  x = x' /\ y = y'.
Proof.
  intros Hv Hv' Heq.
  rewrite (in_index_value g Hg x y Hv) in Heq.
  rewrite (in_index_value g Hg x' y' Hv') in Heq.
  inversion Heq as [Hslots].
  pose proof (offset_range g x y Hv) as Ho.
  pose proof (offset_range g x' y' Hv') as Ho'.
  assert (Hxm : x_max g = x_size g - 1) by apply Hg.
  assert (Hy : y = y') by nia.
  subst y'. split; [| reflexivity].
  apply (offset_injective x x' y). lia.
Qed.

Lemma in_index_surjective (i : Z) :
  0 <= i <= x_size g * y_size g - 1 ->
  exists x y : Z,
    valid_tile g x y /\ cascade_stream_in_index g x y = Ok i.
Proof.
  intros Hi.
  assert (Hxm : x_max g = x_size g - 1) by apply Hg.
  assert (Hxs : 0 < x_size g) by apply Hg.
  pose proof (Z.div_mod i (x_size g)) as Hdm.
  pose proof (Z.mod_pos_bound i (x_size g) Hxs) as Hmod.
  assert (Hq : 0 <= i / x_size g < y_size g).
  { split; [apply Z.div_pos; lia |].
    apply Z.div_lt_upper_bound; lia. }
  exists (if Z.odd (i / x_size g)
          then x_max g - i mod x_size g else i mod x_size g),
         (i / x_size g).
  assert (Hv : valid_tile g
                 (if Z.odd (i / x_size g)
                  then x_max g - i mod x_size g else i mod x_size g)
                 (i / x_size g)).
  { unfold valid_tile. destruct (Z.odd (i / x_size g)); lia. }
  split; [exact Hv |].
  rewrite (in_index_value g Hg _ _ Hv). f_equal.
  unfold serpentine_offset. destruct (Z.odd (i / x_size g)); lia.
Qed.

End Bijection.

(** C4: the input slot is a bijection from the tiles of the array onto
    [{0, ..., x_size * y_size - 1}]: on a tile it is
    [x_size * y + (odd(y) ? x_max - x : x)] and lies in that range, two
    tiles with the same input slot are the same tile, and every slot of
    the range is the input slot of a tile. *)
Theorem in_index_bijection :
  forall g : Geography,
    geo_ok g ->
    (forall x y : Z,
        valid_tile g x y ->
        cascade_stream_in_index g x y
        = Ok (x_size g * y + (if Z.odd y then x_max g - x else x)) /\
        0 <= x_size g * y + (if Z.odd y then x_max g - x else x)
          <= x_size g * y_size g - 1) /\
    (forall x y x' y' : Z,
        valid_tile g x y -> valid_tile g x' y' ->
        cascade_stream_in_index g x y = cascade_stream_in_index g x' y' ->
        x = x' /\ y = y') /\
    (forall i : Z,
        0 <= i <= x_size g * y_size g - 1 ->
        exists x y : Z,
          valid_tile g x y /\ cascade_stream_in_index g x y = Ok i).
Proof.
  intros g Hg. split; [| split].
  - intros x y Hv. split.
    + apply (in_index_value g Hg x y Hv).
    + apply (slot_range g Hg x y Hv).
  - apply (in_index_injective g Hg).
  - apply (in_index_surjective g Hg).
Qed.

Lemma in_index_bijection_witness :
  (forall x x' y' : Z,
      valid_tile (layout_size 3 2) x 1 -> valid_tile (layout_size 3 2) x' y' ->
      cascade_stream_in_index (layout_size 3 2) x 1
      = cascade_stream_in_index (layout_size 3 2) x' y' ->
      x = x' /\ 1 = y') /\
  (exists x y : Z,
      valid_tile (layout_size 3 2) x y /\
      cascade_stream_in_index (layout_size 3 2) x y = Ok 4).
Proof.
  assert (H32 : geo_ok (layout_size 3 2))
    by (geo_ok_by_computation).
  split.
  - intros x x' y'.
    apply (proj1 (proj2 (in_index_bijection (layout_size 3 2) H32)) x 1 x' y').
  - apply (proj2 (proj2 (in_index_bijection (layout_size 3 2) H32)) 4).
    cbn; lia.
Defined.

(** ** The array of pipes *)

Lemma new_cascade_stream_fresh (g : Geography) (p : static_pipe) :
  In p (cascade_stream_pipes (new_cascade_stream g)) ->
  p = new_static_pipe 4.
Proof.
  unfold new_cascade_stream; cbn. apply repeat_spec.
Qed.

(** C5: the array of cascade pipes has [x_size * y_size + 1] slots, one
    more than there are tiles in the array; 7 slots for [x_size = 3] and
    [y_size = 2]. *)
Theorem cascade_stream_pipes_slots :
  (forall g : Geography,
      geo_ok g ->
      Z.of_nat (length (cascade_stream_pipes (new_cascade_stream g)))
      = x_size g * y_size g + 1 /\
      length (cascade_stream_pipes (new_cascade_stream g))
      = S (length (serpentine g)))
  /\
  length (cascade_stream_pipes (new_cascade_stream (layout_size 3 2)))
  = 7%nat.
Proof.
  split; [| reflexivity].
  intros g Hg.
  pose proof (new_cascade_stream_geography g Hg) as Hlen.
  unfold has_geography, cascade_stream_pipes_bound in Hlen.
  split; [exact Hlen |].
  rewrite (serpentine_length g Hg).
  pose proof (nx_size g Hg) as Hnx. pose proof (ny_size g Hg) as Hny.
  apply Nat2Z.inj. rewrite Hlen, Nat2Z.inj_succ, Nat2Z.inj_mul, Hnx, Hny.
  lia.
Qed.

Lemma cascade_stream_pipes_slots_witness :
  Z.of_nat (length (cascade_stream_pipes
                      (new_cascade_stream (layout_size 4 3))))
  = 4 * 3 + 1 /\
  length (cascade_stream_pipes (new_cascade_stream (layout_size 4 3)))
  = S (length (serpentine (layout_size 4 3))).
Proof.
  apply (proj1 cascade_stream_pipes_slots (layout_size 4 3)).
  geo_ok_by_computation.
Defined.

(** ** The two ends of the chain *)

Section Ends.

Variable g : Geography.
Hypothesis Hg : geo_ok g.

Lemma end_column_offset :
  serpentine_offset g (end_column g) (y_max g) = x_max g.
Proof.
  unfold serpentine_offset, end_column.
  rewrite <- Z.negb_even. destruct (Z.even (y_max g)); cbn; lia.
Qed.

Lemma end_tile_valid : valid_tile g (end_column g) (y_max g).
Proof.
  destruct Hg as (_ & _ & Hxm & Hym & Hxs & Hys & _).
  unfold valid_tile, end_column. destruct (Z.even (y_max g)); lia.
Qed.

Lemma start_tile_valid : valid_tile g 0 0.
Proof.
  destruct Hg as (_ & _ & Hxm & Hym & Hxs & Hys & _).
  unfold valid_tile. lia.
Qed.

Lemma first_slot_tile (x y : Z) :
  valid_tile g x y ->
  (cascade_stream_in_index g x y = Ok 0 <-> x = 0 /\ y = 0).
Proof.
  intros Hv. rewrite (in_index_value g Hg x y Hv).
  pose proof (offset_range g x y Hv) as Ho.
  assert (Hxs : 0 < x_size g) by apply Hg.
  split.
  - intros Heq. injection Heq as Hslot.
    assert (Hy : y = 0) by (destruct Hv as [_ Hy]; nia).
    subst y. split; [| reflexivity].
    unfold serpentine_offset in Hslot. cbn in Hslot. lia.
  - intros [-> ->]. unfold serpentine_offset. cbn. f_equal. lia.
Qed.

Lemma last_slot_tile (x y : Z) :
  valid_tile g x y ->
  (cascade_stream_out_index g x y = Ok (x_size g * y_size g)
   <-> x = end_column g /\ y = y_max g).
Proof.
  intros Hv. rewrite (out_index_value g Hg x y Hv).
  pose proof (offset_range g x y Hv) as Ho.
  assert (Hxm : x_max g = x_size g - 1) by apply Hg.
  assert (Hym : y_max g = y_size g - 1) by apply Hg.
  split.
  - intros Heq. injection Heq as Hslot.
    assert (Hy : y = y_max g) by (destruct Hv as [_ Hy]; nia).
    subst y. split; [| reflexivity].
    apply (offset_injective g x (end_column g) (y_max g)).
    rewrite end_column_offset. nia.
  - intros [-> ->]. rewrite end_column_offset. f_equal. nia.
Qed.

Lemma at_cascade_start_spec (x y : Z) :
  at_cascade_start g x y = true <-> x = 0 /\ y = 0.
Proof.
  destruct Hg as (Hx0 & Hy0 & _).
  unfold at_cascade_start. rewrite andb_true_iff, !Z.eqb_eq, Hx0, Hy0.
  reflexivity.
Qed.

Lemma at_cascade_end_spec (x y : Z) :
  at_cascade_end g x y = true <-> x = end_column g /\ y = y_max g.
Proof.
  destruct Hg as (Hx0 & _).
  unfold at_cascade_end, end_column.
  rewrite andb_true_iff, !Z.eqb_eq, low_bit_odd, Hx0, <- Z.negb_even.
  split; intros [Hx Hy]; subst y; split; try reflexivity;
    destruct (Z.even (y_max g)); assumption.
Qed.

End Ends.

(** C6: the tile [(0, 0)] has input slot 0; the tile of row [y_max] whose
    column is [x_max] when [y_max] is even and 0 when [y_max] is odd has
    output slot [x_size * y_size]; no other tile has input slot 0, no
    other tile has output slot [x_size * y_size], and these two slots are
    the output slot, respectively the input slot, of no tile at all.  The
    two tiles are the ones the conditionals of the test single out. *)
Theorem cascade_chain_ends :
  forall g : Geography,
    geo_ok g ->
    cascade_stream_in_index g 0 0 = Ok 0 /\
    cascade_stream_out_index g
      (if Z.even (y_max g) then x_max g else 0) (y_max g)
    = Ok (x_size g * y_size g) /\
    (forall x y : Z,
        valid_tile g x y ->
        cascade_stream_in_index g x y = Ok 0 -> x = 0 /\ y = 0) /\
    (forall x y : Z,
        valid_tile g x y ->
        cascade_stream_out_index g x y = Ok (x_size g * y_size g) ->
        x = (if Z.even (y_max g) then x_max g else 0) /\ y = y_max g) /\
    (forall x y : Z,
        valid_tile g x y -> cascade_stream_out_index g x y <> Ok 0) /\
    (forall x y : Z,
        valid_tile g x y ->
        cascade_stream_in_index g x y <> Ok (x_size g * y_size g)) /\
    (forall x y : Z,
        at_cascade_start g x y = true <-> x = 0 /\ y = 0) /\
    (forall x y : Z,
        at_cascade_end g x y = true
        <-> x = (if Z.even (y_max g) then x_max g else 0) /\ y = y_max g).
Proof.
  intros g Hg. change (if Z.even (y_max g) then x_max g else 0)
    with (end_column g).
  repeat apply conj.
  - apply (first_slot_tile g Hg 0 0 (start_tile_valid g Hg)). now split.
  - apply (last_slot_tile g Hg _ _ (end_tile_valid g Hg)). now split.
  - intros x y Hv. apply (first_slot_tile g Hg x y Hv).
  - intros x y Hv. apply (last_slot_tile g Hg x y Hv).
  - intros x y Hv. rewrite (out_index_value g Hg x y Hv).
    pose proof (slot_range g Hg x y Hv) as [_ Hs].
    intros Heq. injection Heq as Hslot. lia.
  - intros x y Hv. rewrite (in_index_value g Hg x y Hv).
    pose proof (slot_range g Hg x y Hv) as [_ Hs].
    intros Heq. injection Heq as Hslot. lia.
  - apply (at_cascade_start_spec g Hg).
  - apply (at_cascade_end_spec g Hg).
Qed.

Lemma cascade_chain_ends_witness :
  cascade_stream_in_index (layout_size 3 2) 0 0 = Ok 0 /\
  cascade_stream_out_index (layout_size 3 2) 0 1 = Ok 6 /\
  cascade_stream_out_index (layout_size 3 3) 2 2 = Ok 9.
Proof.
  assert (H32 : geo_ok (layout_size 3 2))
    by (geo_ok_by_computation).
  assert (H33 : geo_ok (layout_size 3 3))
    by (geo_ok_by_computation).
  split; [| split].
  - apply (proj1 (cascade_chain_ends (layout_size 3 2) H32)).
  - apply (proj1 (proj2 (cascade_chain_ends (layout_size 3 2) H32))).
  - apply (proj1 (proj2 (cascade_chain_ends (layout_size 3 3) H33))).
Defined.

(** ** The port accessors of the tile base *)

Lemma select_out_of_range (ports : list static_pipe) (port : Z) :
  ~ (0 <= port < Z.of_nat (length ports)) ->
  axi_stream_switch.select ports port = Fail PortOutOfRange.
Proof.
  intros Hbad. unfold axi_stream_switch.select, axi_stream_switch.valid_port.
  destruct (Z.leb_spec 0 port) as [Hlo | Hlo]; [| reflexivity].
  destruct (Z.ltb_spec port (Z.of_nat (length ports))) as [Hhi | Hhi];
    [| reflexivity].
  exfalso. apply Hbad. now split.
Qed.


(** C7: [in<T, Target>(port)] with a [port] that is not an index of an
    input port of the stream switch, and [out<T, Target>(port)] with a
    [port] that is not an index of an output port, fail with the
    out-of-range fault and return no access handle. *)
Theorem port_out_of_range :
  forall (T : Type) (Target : target) (port : Z) (self : tile_base.t),
    (~ (0 <= port
        < Z.of_nat (length (axi_stream_switch.in_ (tile_base.axi_ss self)))) ->
     tile_base.in_ T Target port self = Fail PortOutOfRange) /\
    (~ (0 <= port
        < Z.of_nat (length (axi_stream_switch.out (tile_base.axi_ss self)))) ->
     tile_base.out T Target port self = Fail PortOutOfRange).
Proof.
  intros T Target port self. split; intros Hbad.
  - unfold tile_base.in_. now rewrite select_out_of_range.
  - unfold tile_base.out. now rewrite select_out_of_range.
Qed.

Lemma port_out_of_range_witness :
  let self :=
    {| tile_base.thread := Some 0%nat;
       tile_base.axi_ss :=
         {| axi_stream_switch.in_ := [new_static_pipe 4; new_static_pipe 4];
            axi_stream_switch.out := [new_static_pipe 4] |} |} in
  tile_base.in_ Z blocking_pipe 2 self = Fail PortOutOfRange /\
  tile_base.out Z pipe_target (-1) self = Fail PortOutOfRange.
Proof.
  intros self. split.
  - apply (proj1 (port_out_of_range Z blocking_pipe 2 self)). cbn; lia.
  - apply (proj2 (port_out_of_range Z pipe_target (-1) self)). cbn; lia.
Defined.

(** ** First in, first out *)

Lemma pipe_writes_content (ws : list (target * Z)) :
  forall p p' : static_pipe,
    pipe_writes ws p = Some p' ->
    capacity p' = capacity p /\ content p' = content p ++ map snd ws.
Proof.
  induction ws as [| [t v] ws IH]; intros p p' Hw; cbn in Hw.
  - injection Hw as <-. now rewrite app_nil_r.
  - unfold pipe_write in Hw.
    destruct (length (content p) <? capacity p)%nat.
    + apply IH in Hw. cbn in Hw. destruct Hw as [Hcap Hcont].
      split; [exact Hcap |].
      rewrite Hcont, <- app_assoc. reflexivity.
    + destruct t; discriminate.
Qed.

Lemma pipe_reads_drain (ts : list target) :
  forall p : static_pipe,
    length ts = length (content p) ->
    pipe_reads ts p
    = Some (content p, {| capacity := capacity p; content := [] |}).
Proof.
  induction ts as [| t ts IH]; intros [cap c] Hlen; cbn in *.
  - destruct c; [reflexivity | discriminate].
  - destruct c as [| v c]; [discriminate |].
    unfold pipe_read. cbn.
    rewrite IH by (cbn in *; lia). reflexivity.
Qed.

Lemma pipe_writes_room (ws : list (target * Z)) :
  forall p : static_pipe,
    (length (content p) + length ws <= capacity p)%nat ->
    exists p' : static_pipe, pipe_writes ws p = Some p'.
Proof.
  induction ws as [| [t v] ws IH]; intros p Hroom; cbn in *.
  - now exists p.
  - unfold pipe_write.
    destruct (Nat.ltb_spec (length (content p)) (capacity p)) as [_ | Hfull];
      [| lia].
    apply IH. cbn. rewrite length_app. cbn. lia.
Qed.

(** C8: first in, first out on one channel.  After writes of
    [w1, ..., wn] to an empty channel that all succeeded, [n] reads all
    succeed and return [w1, ..., wn] in that order, whichever access
    target each write and each read uses, and leave the channel empty:
    nothing is duplicated and nothing is dropped. *)
Theorem pipe_fifo :
  forall (ws : list (target * Z)) (ts : list target) (p0 p1 : static_pipe),
    content p0 = [] ->
    pipe_writes ws p0 = Some p1 ->
    length ts = length ws ->
    pipe_reads ts p1
    = Some (map snd ws, {| capacity := capacity p0; content := [] |}).
Proof.
  intros ws ts p0 p1 Hempty Hw Hlen.
  apply pipe_writes_content in Hw. destruct Hw as [Hcap Hcont].
  rewrite Hempty in Hcont. cbn in Hcont.
  rewrite pipe_reads_drain by (rewrite Hcont, length_map; exact Hlen).
  now rewrite Hcont, Hcap.
Qed.

Lemma pipe_fifo_witness :
  pipe_reads [pipe_target; blocking_pipe; blocking_pipe]
    {| capacity := 4; content := [10; 20; 30] |}
  = Some ([10; 20; 30], {| capacity := 4; content := [] |}).
Proof.
  apply (pipe_fifo [(blocking_pipe, 10); (pipe_target, 20); (blocking_pipe, 30)]
           [pipe_target; blocking_pipe; blocking_pipe]
           (new_static_pipe 4) {| capacity := 4; content := [10; 20; 30] |}).
  - reflexivity.
  - reflexivity.
  - reflexivity.
Defined.

(** ** The default program of a tile *)

(** C9: the default [run] returns, with no value and no fault, and leaves
    the tile as it was: the same thread handle, the same stream switch,
    and the same queue behind every input and output port. *)
Theorem run_does_nothing :
  forall self : tile_base.t,
    exists self' : tile_base.t,
      tile_base.run self = Ok (tt, self') /\
      tile_base.thread self' = tile_base.thread self /\
      tile_base.axi_ss self' = tile_base.axi_ss self /\
      (forall port : Z,
          axi_stream_switch.select
            (axi_stream_switch.in_ (tile_base.axi_ss self')) port
          = axi_stream_switch.select
              (axi_stream_switch.in_ (tile_base.axi_ss self)) port) /\
      (forall port : Z,
          axi_stream_switch.select
            (axi_stream_switch.out (tile_base.axi_ss self')) port
          = axi_stream_switch.select
              (axi_stream_switch.out (tile_base.axi_ss self)) port).
Proof.
  intros self. exists self. repeat split.
Qed.

(** ** Lists updated in place, and maps that may fail *)

Lemma length_set_nth {A : Type} (l : list A) (n : nat) (a : A) :
  length (set_nth l n a) = length l.
Proof.
  revert n. induction l as [| b l IH]; intros [| n]; cbn; auto.
Qed.

Lemma nth_error_set_nth {A : Type} (l : list A) (n m : nat) (a : A) :
  nth_error (set_nth l n a) m
  = if (m =? n)%nat && (n <? length l)%nat then Some a else nth_error l m.
Proof.
  revert n m. induction l as [| b l IH]; intros n m.
  - cbn. rewrite andb_false_r. now destruct n.
  - destruct n as [| n], m as [| m]; cbn [set_nth nth_error]; try reflexivity.
    rewrite IH. reflexivity.
Qed.

Lemma in_set_nth {A : Type} (l : list A) (n : nat) (a x : A) :
  In x (set_nth l n a) -> x = a \/ In x l.
Proof.
  revert n. induction l as [| b l IH]; intros [| n]; cbn; try tauto.
  - intros [<- | Hin]; auto.
  - intros [<- | Hin]; auto. destruct (IH n Hin); auto.
Qed.

Lemma map_res_nth {A B : Type} (f : A -> res B) (l : list A) :
  forall l' : list B,
    map_res f l = Ok l' ->
    length l' = length l /\
    forall (r : nat) (b : B),
      nth_error l' r = Some b ->
      exists a : A, nth_error l r = Some a /\ f a = Ok b.
Proof.
  induction l as [| a l IH]; intros l' Hm; cbn in Hm.
  - injection Hm as <-. split; [reflexivity |]. intros [| r] b; discriminate.
  - destruct (f a) as [b0 |] eqn:Hfa; [| discriminate]. cbn in Hm.
    destruct (map_res f l) as [bs |]; [| discriminate]. cbn in Hm.
    injection Hm as <-. destruct (IH bs eq_refl) as [Hlen Hnth].
    split; [cbn; now rewrite Hlen |].
    intros [| r] b Hb; cbn in Hb.
    + injection Hb as <-. now exists a.
    + now apply Hnth.
Qed.

Lemma map_res_total {A B : Type} (f : A -> res B) (l : list A) :
  (forall a : A, In a l -> exists b : B, f a = Ok b) ->
  exists l' : list B, map_res f l = Ok l'.
Proof.
  induction l as [| a l IH]; intros Hf; cbn.
  - now exists [].
  - destruct (Hf a (or_introl eq_refl)) as [b Hb]. rewrite Hb. cbn.
    destruct IH as [bs Hbs]; [intros x Hx; apply Hf; now right |].
    rewrite Hbs. cbn. now exists (b :: bs).
Qed.

(** ** The program of a tile, by the rank of the tile *)

Section Programs.

Variable g : Geography.
Hypothesis Hg : geo_ok g.
Hypothesis Hval : 0x1000 * x_max g + y_max g <= Int.max_int.

Lemma tile_at_rank (r : nat) :
  (r < length (serpentine g))%nat ->
  valid_tile g (fst (tile_at g r)) (snd (tile_at g r)) /\
  cascade_stream_in_index g (fst (tile_at g r)) (snd (tile_at g r))
  = Ok (Z.of_nat r).
Proof.
  intros Hr. unfold tile_at.
  pose proof (nth_error_nth' (serpentine g) (0, 0) Hr) as Hnth.
  destruct (nth r (serpentine g) (0, 0)) as [x y] eqn:HT.
  destruct (nth_error_split _ _ Hnth) as (l1 & l2 & Hsplit & Hlen).
  cbn [fst snd]. split.
  - apply (serpentine_spec g Hg). rewrite Hsplit.
    apply in_or_app. right. now left.
  - rewrite <- Hlen.
    apply (serpentine_rank g Hg l1 l2 (x, y) Hsplit).
Qed.

Lemma tile_value_checked (x y : Z) :
  valid_tile g x y ->
  Int.mul x 0x1000 = Ok (x * 0x1000) /\
  Int.add (x * 0x1000) y = Ok (tile_value (x, y)).
Proof.
  intros [Hx Hy].
  assert (Hym : y_max g = y_size g - 1) by apply Hg.
  rewrite max_int_value in Hval.
  unfold Int.mul, Int.add, tile_value. cbn [fst snd].
  split; apply checked_in_range; rewrite max_int_value, min_int_value; lia.
Qed.

Lemma tile_run_rank (cs : cascade_stream) (r : nat) :
  has_geography g cs ->
  (r < length (serpentine g))%nat ->
  tile_run g cs (fst (tile_at g r)) (snd (tile_at g r))
  = Ok (chain_program g r).
Proof.
  intros Hcs Hr.
  destruct (tile_at_rank r Hr) as [Hv Hrank].
  assert (HT : tile_at g r = (fst (tile_at g r), snd (tile_at g r)))
    by apply surjective_pairing.
  set (x := fst (tile_at g r)) in *. set (y := snd (tile_at g r)) in *.
  pose proof (serpentine_length g Hg) as HN.
  pose proof (nx_size g Hg) as Hnx. pose proof (ny_size g Hg) as Hny.
  assert (HNz : Z.of_nat (length (serpentine g)) = x_size g * y_size g)
    by (rewrite HN, Nat2Z.inj_mul, Hnx, Hny; reflexivity).
  pose proof (in_index_value g Hg x y Hv) as Hin.
  pose proof (out_index_value g Hg x y Hv) as Hout.
  rewrite Hrank in Hin. injection Hin as Hslot.
  unfold tile_run, chain_program.
  rewrite (get_in_value g cs Hg Hcs blocking_pipe x y Hv).
  rewrite (get_out_value g cs Hg Hcs blocking_pipe x y Hv).
  destruct (tile_value_checked x y Hv) as [Hmul Hadd].
  cbn [bind acc_slot]. rewrite Hmul. cbn [bind]. rewrite Hadd. cbn [bind].
  rewrite <- Hslot, <- HT.
  assert (Hstart : at_cascade_start g x y = (r =? 0)%nat).
  { apply eq_true_iff_eq.
    rewrite (at_cascade_start_spec g Hg), Nat.eqb_eq.
    rewrite <- (first_slot_tile g Hg x y Hv), Hrank.
    split; [intros Heq; injection Heq as Heq; lia | intros ->; reflexivity]. }
  assert (Hend : at_cascade_end g x y = (S r =? length (serpentine g))%nat).
  { apply eq_true_iff_eq.
    rewrite (at_cascade_end_spec g Hg), Nat.eqb_eq.
    rewrite <- (last_slot_tile g Hg x y Hv), Hout, <- Hslot.
    split; [intros Heq; injection Heq as Heq; lia |].
    intros Heq. f_equal. lia. }
  rewrite Hstart, Hend.
  destruct (r =? 0)%nat, (S r =? length (serpentine g))%nat; cbn;
    repeat f_equal; lia.
Qed.

End Programs.

(** ** The array before its threads start *)

Lemma array_start_threads (g : Geography) :
  geo_ok g -> 0x1000 * x_max g + y_max g <= Int.max_int ->
  exists a0 : me_array,
    me_array_start g = Ok a0 /\
    arr_cs a0 = new_cascade_stream g /\
    arr_read a0 = [] /\
    length (arr_tiles a0) = length (serpentine g) /\
    forall (r : nat) (th : tile_thread),
      nth_error (arr_tiles a0) r = Some th ->
      th = {| th_tile := tile_at g r; th_todo := chain_program g r |}.
Proof.
  intros Hg Hval.
  pose proof (new_cascade_stream_geography g Hg) as Hcs.
  unfold me_array_start.
  set (f := fun T : Z * Z =>
              todo <- tile_run g (new_cascade_stream g) (fst T) (snd T) ;;
              Ok {| th_tile := T; th_todo := todo |}).
  assert (Hf : forall (r : nat) (T : Z * Z),
             nth_error (serpentine g) r = Some T ->
             f T = Ok {| th_tile := tile_at g r;
                         th_todo := chain_program g r |}).
  { intros r T Hnth.
    assert (Hr : (r < length (serpentine g))%nat)
      by (apply nth_error_Some; congruence).
    assert (HT : T = tile_at g r)
      by (symmetry; apply (nth_error_nth _ _ _ Hnth)).
    subst T. unfold f.
    now rewrite (tile_run_rank g Hg Hval _ r Hcs Hr). }
  destruct (map_res_total f (serpentine g)) as [ths Hths].
  { intros T HT. apply In_nth_error in HT. destruct HT as [r Hr].
    eexists. apply (Hf r T Hr). }
  rewrite Hths. cbn [bind]. eexists. split; [reflexivity |]. cbn.
  destruct (map_res_nth f (serpentine g) ths Hths) as [Hlen Hnth].
  repeat split; [exact Hlen |].
  intros r th Hth. destruct (Hnth r th Hth) as (T & HT & HfT).
  rewrite (Hf r T HT) in HfT. now injection HfT as <-.
Qed.

(** ** One step of a thread *)

Lemma chain_program_next (g : Geography) (r : nat)
    (before rest : list action) (act : action) :
  chain_program g r = before ++ act :: rest ->
  match act with
  | cs_read k =>
      k = Z.of_nat r /\ r <> 0%nat /\
      wants_read rest = false
  | cs_write k v =>
      k = Z.of_nat (S r) /\ v = tile_value (tile_at g r) /\
      S r <> length (serpentine g) /\ rest = []
  end.
Proof.
  unfold chain_program.
  destruct (Nat.eqb_spec r 0) as [Hr | Hr];
    destruct (Nat.eqb_spec (S r) (length (serpentine g))) as [Hn | Hn];
    destruct before as [| b1 [| b2 [| b3 before]]]; cbn;
    intros Heq; try discriminate;
    injection Heq as <-; subst; try discriminate; auto;
    try (match goal with H : _ :: _ = _ |- _ => injection H as <- end);
    subst; auto;
    match goal with
    | H : [] = _ ++ _ :: _ |- _ => destruct before; discriminate H
    | _ => idtac
    end.
Qed.

Lemma step_thread_inv (i : nat) (a a' : me_array) :
  step_thread i a = Some a' ->
  exists (th : tile_thread) (act : action) (rest : list action),
    nth_error (arr_tiles a) i = Some th /\
    th_todo th = act :: rest /\
    arr_tiles a'
    = set_nth (arr_tiles a) i {| th_tile := th_tile th; th_todo := rest |} /\
    match act with
    | cs_read k =>
        exists (p : static_pipe) (v : Z) (c : list Z),
          0 <= k /\
          nth_error (cascade_stream_pipes (arr_cs a)) (Z.to_nat k) = Some p /\
          content p = v :: c /\
          cascade_stream_pipes (arr_cs a')
          = set_nth (cascade_stream_pipes (arr_cs a)) (Z.to_nat k)
              {| capacity := capacity p; content := c |} /\
          arr_read a' = arr_read a ++ [(th_tile th, v)]
    | cs_write k v =>
        exists p : static_pipe,
          0 <= k /\
          nth_error (cascade_stream_pipes (arr_cs a)) (Z.to_nat k) = Some p /\
          (length (content p) < capacity p)%nat /\
          cascade_stream_pipes (arr_cs a')
          = set_nth (cascade_stream_pipes (arr_cs a)) (Z.to_nat k)
              {| capacity := capacity p; content := content p ++ [v] |} /\
          arr_read a' = arr_read a
    end.
Proof.
  unfold step_thread. intros Hstep.
  destruct (nth_error (arr_tiles a) i) as [th |]; [| discriminate].
  destruct (th_todo th) as [| act rest] eqn:Htodo; [discriminate |].
  exists th, act, rest. split; [reflexivity |]. split; [exact Htodo |].
  destruct act as [k | k v]; unfold subscript in Hstep;
    destruct (Z.ltb_spec k 0) as [Hneg | Hpos]; try discriminate;
    destruct (nth_error (cascade_stream_pipes (arr_cs a)) (Z.to_nat k))
      as [p |] eqn:Hp; try discriminate.
  - unfold pipe_read in Hstep.
    destruct (content p) as [| v c] eqn:Hc; [discriminate |].
    injection Hstep as <-. cbn. split; [reflexivity |].
    exists p, v, c. auto.
  - unfold pipe_write in Hstep.
    destruct (Nat.ltb_spec (length (content p)) (capacity p)) as [Hroom | Hfull];
      [| discriminate].
    injection Hstep as <-. cbn. split; [reflexivity |].
    exists p. auto.
Qed.

Lemma todo_of_step (a a' : me_array) (i : nat) (th th' : tile_thread) :
  nth_error (arr_tiles a) i = Some th ->
  arr_tiles a' = set_nth (arr_tiles a) i th' ->
  forall r : nat,
    todo_of a' r = if (r =? i)%nat then th_todo th' else todo_of a r.
Proof.
  intros Hth Htiles r. unfold todo_of. rewrite Htiles, nth_error_set_nth.
  assert (Hi : (i < length (arr_tiles a))%nat)
    by (apply nth_error_Some; congruence).
  apply Nat.ltb_lt in Hi. rewrite Hi, andb_true_r.
  now destruct (r =? i)%nat.
Qed.

Lemma slot_content_step (a a' : me_array) (k : nat) (p p' : static_pipe) :
  nth_error (cascade_stream_pipes (arr_cs a)) k = Some p ->
  cascade_stream_pipes (arr_cs a')
  = set_nth (cascade_stream_pipes (arr_cs a)) k p' ->
  forall k' : nat,
    slot_content a' k' = if (k' =? k)%nat then content p' else slot_content a k'.
Proof.
  intros Hp Hpipes k'. unfold slot_content. rewrite Hpipes, nth_error_set_nth.
  assert (Hk : (k < length (cascade_stream_pipes (arr_cs a)))%nat)
    by (apply nth_error_Some; congruence).
  apply Nat.ltb_lt in Hk. rewrite Hk, andb_true_r.
  now destruct (k' =? k)%nat.
Qed.

Lemma array_inv_step (g : Geography) (a a' : me_array) (i : nat) :
  array_inv g a -> step_thread i a = Some a' -> array_inv g a'.
Proof.
  intros (Hlen & Hcap & Hths & Hprog & Hcont & Hord & ranks & Hlog & Hnd & Hranks)
         Hstep.
  destruct (step_thread_inv i a a' Hstep)
    as (th & act & rest & Hth & Htodo & Htiles & Hact).
  destruct (Hprog i th Hth) as [Htile [before Hbefore]].
  rewrite Htodo in Hbefore.
  pose proof (chain_program_next g i before rest act Hbefore) as Hnext.
  assert (Hi : (i < length (serpentine g))%nat)
    by (rewrite <- Hths; apply nth_error_Some; congruence).
  pose proof (todo_of_step a a' i th _ Hth Htiles) as Htodo'.
  cbn [th_todo] in Htodo'.
  assert (Htodo_i : todo_of a i = act :: rest)
    by (unfold todo_of; rewrite Hth; exact Htodo).
  assert (Hprog' : forall (r : nat) (th0 : tile_thread),
             nth_error (arr_tiles a') r = Some th0 ->
             th_tile th0 = tile_at g r /\
             exists before0 : list action,
               chain_program g r = before0 ++ th_todo th0).
  { intros r th0. rewrite Htiles, nth_error_set_nth.
    destruct (Nat.eqb_spec r i) as [-> | Hne]; cbn [andb].
    - destruct (i <? length (arr_tiles a))%nat.
      + intros Heq. injection Heq as <-. cbn. split; [exact Htile |].
        exists (before ++ [act]). now rewrite <- app_assoc.
      + rewrite Hth. intros Heq. injection Heq as <-.
        now apply Hprog.
    - apply Hprog. }
  destruct act as [k | k v].
  - destruct Hnext as (-> & Hi0 & Hwr).
    destruct Hact as (p & v & c & _ & Hp & Hc & Hpipes & Hread).
    rewrite Nat2Z.id in Hp, Hpipes.
    pose proof (slot_content_step a a' i p _ Hp Hpipes) as Hcont'.
    cbn [content] in Hcont'.
    destruct i as [| j]; [lia |].
    pose proof (Hcont (S j)) as Hci.
    unfold slot_content in Hci at 1. rewrite Hp, Hc in Hci.
    destruct (negb (wants_write (todo_of a j)) && wants_read (todo_of a (S j)))
      eqn:Hb; [| discriminate].
    injection Hci as -> ->.
    apply andb_true_iff in Hb. destruct Hb as [Hwj Hrj].
    apply negb_true_iff in Hwj.
    repeat apply conj.
    + now rewrite Hpipes, length_set_nth.
    + intros p0 Hp0. rewrite Hpipes in Hp0. apply in_set_nth in Hp0.
      destruct Hp0 as [-> | Hp0]; [| now apply Hcap].
      cbn. apply Hcap. now apply nth_error_In in Hp.
    + now rewrite Htiles, length_set_nth.
    + exact Hprog'.
    + intros k'. rewrite Hcont'. destruct k' as [| j']; [apply (Hcont 0%nat) |].
      rewrite !Htodo', Hcont.
      destruct (Nat.eqb_spec (S j') (S j)) as [Heq | Hne].
      * rewrite Hwr, andb_false_r. reflexivity.
      * destruct (Nat.eqb_spec j' (S j)) as [-> | Hne']; [| reflexivity].
        rewrite Htodo_i. reflexivity.
    + intros j'. rewrite !Htodo'.
      destruct (Nat.eqb_spec (S j') (S j)) as [Heq | Hne].
      * injection Heq as ->.
        destruct (Nat.eqb_spec j (S j)) as [Habs | _]; [lia |].
        rewrite Hwj. discriminate.
      * destruct (Nat.eqb_spec j' (S j)) as [-> | Hne'].
        -- intros Hw. apply Hord. rewrite Htodo_i. exact Hw.
        -- apply Hord.
    + exists (ranks ++ [S j]). repeat apply conj.
      * rewrite Hread, Hlog, map_app, Htile. reflexivity.
      * apply NoDup_app; [exact Hnd | repeat constructor; intros [] |].
        intros r Hr [<- | []]. apply Hranks in Hr. destruct Hr as [_ Hr].
        congruence.
      * intros r. rewrite Htodo'. split.
        -- intros Hin. apply in_app_or in Hin.
           destruct Hin as [Hin | [<- | []]].
           ++ apply Hranks in Hin. destruct Hin as [Hr Hw].
              destruct (Nat.eqb_spec r (S j)) as [-> | _]; [congruence | tauto].
           ++ rewrite Nat.eqb_refl. split; [lia | exact Hwr].
        -- intros [Hr Hw]. apply in_or_app.
           destruct (Nat.eqb_spec r (S j)) as [-> | Hne]; [right; now left |].
           left. apply Hranks. tauto.
  - destruct Hnext as (-> & -> & HiN & ->).
    destruct Hact as (p & _ & Hp & Hroom & Hpipes & Hread).
    rewrite Nat2Z.id in Hp, Hpipes.
    pose proof (slot_content_step a a' (S i) p _ Hp Hpipes) as Hcont'.
    cbn [content] in Hcont'.
    pose proof (Hcont (S i)) as Hci.
    unfold slot_content in Hci at 1. rewrite Hp, Htodo_i in Hci.
    cbn in Hci.
    assert (Hri : wants_read (todo_of a (S i)) = true)
      by (apply Hord; rewrite Htodo_i; reflexivity).
    repeat apply conj.
    + now rewrite Hpipes, length_set_nth.
    + intros p0 Hp0. rewrite Hpipes in Hp0. apply in_set_nth in Hp0.
      destruct Hp0 as [-> | Hp0]; [| now apply Hcap].
      cbn. apply Hcap. now apply nth_error_In in Hp.
    + now rewrite Htiles, length_set_nth.
    + exact Hprog'.
    + intros k'. rewrite Hcont'. destruct k' as [| j']; [apply (Hcont 0%nat) |].
      rewrite !Htodo', Hcont.
      destruct (Nat.eqb_spec (S j') (S i)) as [Heq | Hne].
      * injection Heq as ->. rewrite Nat.eqb_refl.
        destruct (Nat.eqb_spec (S i) i) as [Habs | _]; [lia |].
        rewrite Hci, Hri. reflexivity.
      * destruct (Nat.eqb_spec j' i) as [-> | Hne']; [lia |].
        destruct (Nat.eqb_spec (S j') i) as [<- | Hne'']; [| reflexivity].
        rewrite Htodo_i. cbn. now rewrite !andb_false_r.
    + intros j'. rewrite !Htodo'.
      destruct (Nat.eqb_spec j' i) as [-> | Hne]; [discriminate |].
      destruct (Nat.eqb_spec (S j') i) as [<- | Hne'].
      * intros Hw. apply Hord in Hw. rewrite Htodo_i in Hw. discriminate.
      * apply Hord.
    + exists ranks. repeat apply conj.
      * now rewrite Hread.
      * exact Hnd.
      * intros r. rewrite Htodo'. split.
        -- intros Hin. apply Hranks in Hin.
           destruct (Nat.eqb_spec r i) as [-> | _]; [| exact Hin].
           split; [tauto | reflexivity].
        -- intros [Hr Hw]. apply Hranks. split; [exact Hr |].
           destruct (Nat.eqb_spec r i) as [-> | _]; [| exact Hw].
           rewrite Htodo_i. reflexivity.
Qed.

Lemma pipes_one_more (g : Geography) :
  geo_ok g ->
  length (cascade_stream_pipes (new_cascade_stream g))
  = S (length (serpentine g)).
Proof.
  intros Hg.
  pose proof (new_cascade_stream_geography g Hg) as Hlen.
  unfold has_geography, cascade_stream_pipes_bound in Hlen.
  rewrite (serpentine_length g Hg).
  pose proof (nx_size g Hg) as Hnx. pose proof (ny_size g Hg) as Hny.
  apply Nat2Z.inj. rewrite Hlen, Nat2Z.inj_succ, Nat2Z.inj_mul, Hnx, Hny.
  lia.
Qed.

Lemma wants_program (g : Geography) (r : nat) :
  wants_read (chain_program g r) = negb (r =? 0)%nat /\
  wants_write (chain_program g r)
  = negb (S r =? length (serpentine g))%nat.
Proof.
  unfold chain_program, wants_read, wants_write.
  now destruct (r =? 0)%nat, (S r =? length (serpentine g))%nat.
Qed.

Lemma array_inv_start (g : Geography) (a0 : me_array) :
  geo_ok g -> 0x1000 * x_max g + y_max g <= Int.max_int ->
  me_array_start g = Ok a0 -> array_inv g a0.
Proof.
  intros Hg Hval Hstart.
  destruct (array_start_threads g Hg Hval)
    as (a & Ha & Hcs & Hread & Hlen & Hth).
  rewrite Hstart in Ha. injection Ha as <-.
  assert (Htodo : forall r : nat,
             todo_of a0 r
             = if (r <? length (serpentine g))%nat
               then chain_program g r else []).
  { intros r. unfold todo_of.
    destruct (nth_error (arr_tiles a0) r) as [th |] eqn:Hnth.
    - assert (Hr : (r < length (serpentine g))%nat)
        by (rewrite <- Hlen; apply nth_error_Some; congruence).
      apply Nat.ltb_lt in Hr. rewrite Hr, (Hth r th Hnth). reflexivity.
    - apply nth_error_None in Hnth. rewrite Hlen in Hnth.
      apply Nat.ltb_ge in Hnth. now rewrite Hnth. }
  assert (Hfresh : forall k : nat, slot_content a0 k = []).
  { intros k. unfold slot_content. rewrite Hcs.
    destruct (nth_error _ k) as [p |] eqn:Hp; [| reflexivity].
    apply nth_error_In in Hp.
    now rewrite (new_cascade_stream_fresh g p Hp). }
  repeat apply conj.
  - rewrite Hcs. now apply pipes_one_more.
  - intros p Hp. rewrite Hcs in Hp.
    now rewrite (new_cascade_stream_fresh g p Hp).
  - exact Hlen.
  - intros r th Hnth. rewrite (Hth r th Hnth). cbn. split; [reflexivity |].
    now exists [].
  - intros [| j]; rewrite Hfresh; [reflexivity |].
    rewrite !Htodo.
    destruct (Nat.ltb_spec (S j) (length (serpentine g))) as [HSj | HSj];
      [| now rewrite andb_false_r].
    destruct (Nat.ltb_spec j (length (serpentine g))) as [_ | Hj]; [| lia].
    destruct (wants_program g j) as [_ ->].
    destruct (Nat.eqb_spec (S j) (length (serpentine g))); [lia |].
    reflexivity.
  - intros j. rewrite !Htodo.
    destruct (Nat.ltb_spec j (length (serpentine g))) as [Hj | Hj];
      [| discriminate].
    destruct (wants_program g j) as [_ ->].
    destruct (Nat.eqb_spec (S j) (length (serpentine g))) as [| HSj];
      [discriminate |].
    intros _.
    destruct (Nat.ltb_spec (S j) (length (serpentine g))) as [_ |]; [| lia].
    now destruct (wants_program g (S j)) as [-> _].
  - exists []. repeat apply conj.
    + now rewrite Hread.
    + constructor.
    + intros r. rewrite Htodo. split; [intros [] |].
      intros [Hr Hw].
      destruct (Nat.ltb_spec r (length (serpentine g))) as [_ |]; [| lia].
      destruct (wants_program g r) as [Hwr _]. rewrite Hwr in Hw.
      destruct (Nat.eqb_spec r 0); [lia | discriminate].
Qed.

Lemma array_inv_run (g : Geography) (a0 a : me_array) (n : nat) :
  array_inv g a0 -> array_run a0 n a -> array_inv g a.
Proof.
  intros Hinv Hrun. induction Hrun as [a0 | a0 a a' n Hrun IH [i Hstep]].
  - exact Hinv.
  - apply (array_inv_step g a a' i); auto.
Qed.

Lemma nth_error_adjacent {A : Type} (l : list A) :
  forall (j : nat) (x y : A),
    nth_error l j = Some x -> nth_error l (S j) = Some y ->
    exists l1 l2 : list A, l = l1 ++ x :: y :: l2.
Proof.
  induction l as [| a l IH]; intros [| j] x y Hx Hy; try discriminate.
  - cbn in Hx. injection Hx as ->. destruct l as [| b l]; [discriminate |].
    cbn in Hy. injection Hy as ->. now exists [], l.
  - destruct (IH j x y Hx Hy) as (l1 & l2 & ->).
    now exists (a :: l1), l2.
Qed.

(** Consecutive ranks are consecutive tiles of the order. *)
Lemma tile_at_follows (g : Geography) (j : nat) :
  (S j < length (serpentine g))%nat ->
  follows g (tile_at g j) (tile_at g (S j)).
Proof.
  intros Hj. unfold follows, tile_at.
  assert (Hj' : (j < length (serpentine g))%nat) by lia.
  apply (nth_error_adjacent (serpentine g) j);
    now apply nth_error_nth'.
Qed.

(** ** The run of the array *)

Lemma run_reads_from_predecessor (g : Geography) (a : me_array) :
  array_inv g a ->
  forall (U : Z * Z) (v : Z),
    In (U, v) (arr_read a) ->
    exists T : Z * Z, follows g T U /\ v = fst T * 0x1000 + snd T.
Proof.
  intros (_ & _ & _ & _ & _ & _ & ranks & Hlog & _ & Hranks) U v Hin.
  rewrite Hlog in Hin. apply in_map_iff in Hin.
  destruct Hin as (r & Heq & Hr). injection Heq as <- <-.
  apply Hranks in Hr. destruct Hr as [Hr _].
  destruct r as [| j]; [lia |]. cbn [pred].
  exists (tile_at g j). split; [| reflexivity].
  apply tile_at_follows. lia.
Qed.

Lemma step_thread_read (a : me_array) (i k : nat) (th : tile_thread)
    (rest : list action) (v : Z) (c : list Z) :
  nth_error (arr_tiles a) i = Some th ->
  th_todo th = cs_read (Z.of_nat k) :: rest ->
  slot_content a k = v :: c ->
  exists a' : me_array, step_thread i a = Some a'.
Proof.
  intros Hth Htodo Hc. unfold step_thread, subscript, slot_content in *.
  rewrite Hth, Htodo.
  destruct (Z.ltb_spec (Z.of_nat k) 0) as [Hneg | _]; [lia |].
  rewrite Nat2Z.id.
  destruct (nth_error (cascade_stream_pipes (arr_cs a)) k) as [p |];
    [| discriminate].
  unfold pipe_read. rewrite Hc. eexists. reflexivity.
Qed.

Lemma step_thread_write (a : me_array) (i k : nat) (th : tile_thread)
    (rest : list action) (v : Z) (p : static_pipe) :
  nth_error (arr_tiles a) i = Some th ->
  th_todo th = cs_write (Z.of_nat k) v :: rest ->
  nth_error (cascade_stream_pipes (arr_cs a)) k = Some p ->
  (length (content p) < capacity p)%nat ->
  exists a' : me_array, step_thread i a = Some a'.
Proof.
  intros Hth Htodo Hp Hroom. unfold step_thread, subscript.
  rewrite Hth, Htodo.
  destruct (Z.ltb_spec (Z.of_nat k) 0) as [Hneg | _]; [lia |].
  rewrite Nat2Z.id, Hp. unfold pipe_write.
  apply Nat.ltb_lt in Hroom. rewrite Hroom. eexists. reflexivity.
Qed.

(** A thread with something left to do can take a step, or a thread of
    lower rank can. *)
Lemma some_thread_steps (g : Geography) (a : me_array) :
  array_inv g a ->
  forall r : nat,
    todo_of a r <> [] -> exists a' : me_array, array_step a a'.
Proof.
  intros Hinv.
  pose proof Hinv as (Hlen & Hcap & Hths & Hprog & Hcont & Hord & _).
  induction r as [| j IH]; intros Hne.
  all: unfold todo_of in Hne.
  all: match type of Hne with
       | context [nth_error _ ?r] =>
           destruct (nth_error (arr_tiles a) r) as [th |] eqn:Hth;
             [| congruence];
           destruct (th_todo th) as [| act rest] eqn:Htodo; [congruence |];
           destruct (Hprog r th Hth) as [_ [before Hbefore]];
           rewrite Htodo in Hbefore;
           pose proof (chain_program_next g r before rest act Hbefore)
             as Hnext;
           assert (Hr : (r < length (serpentine g))%nat)
             by (rewrite <- Hths; apply nth_error_Some; congruence);
           assert (Htodo_r : todo_of a r = act :: rest)
             by (unfold todo_of; rewrite Hth; exact Htodo)
       end.
  all: destruct act as [k | k v].
  - destruct Hnext as (_ & Habs & _). lia.
  - destruct Hnext as (-> & _ & HN & ->).
    destruct (nth_error (cascade_stream_pipes (arr_cs a)) 1) as [p |] eqn:Hp;
      [| apply nth_error_None in Hp; lia].
    pose proof (Hcont 1%nat) as Hc. cbn beta iota in Hc.
    unfold slot_content in Hc at 1.
    rewrite Hp, Htodo_r in Hc. cbn in Hc.
    destruct (step_thread_write a 0 1 th [] v p Hth Htodo Hp) as [a' Ha'].
    + rewrite Hc, (Hcap p (nth_error_In _ _ Hp)). cbn. lia.
    + now exists a', 0%nat.
  - destruct Hnext as (-> & _ & Hwr).
    destruct (todo_of a j) as [| act' rest'] eqn:Htodo_j.
    + pose proof (Hcont (S j)) as Hc. cbn beta iota in Hc.
      rewrite Htodo_j, Htodo_r in Hc. cbn in Hc.
      destruct (step_thread_read a (S j) (S j) th rest _ _ Hth Htodo Hc)
        as [a' Ha'].
      now exists a', (S j).
    + apply IH. congruence.
  - destruct Hnext as (-> & _ & HN & ->).
    destruct (nth_error (cascade_stream_pipes (arr_cs a)) (S (S j)))
      as [p |] eqn:Hp; [| apply nth_error_None in Hp; lia].
    pose proof (Hcont (S (S j))) as Hc. cbn beta iota in Hc.
    unfold slot_content in Hc at 1.
    rewrite Hp, Htodo_r in Hc. cbn in Hc.
    destruct (step_thread_write a (S j) (S (S j)) th [] v p Hth Htodo Hp)
      as [a' Ha'].
    + rewrite Hc, (Hcap p (nth_error_In _ _ Hp)). cbn. lia.
    + now exists a', (S j).
Qed.

Lemma finished_or_busy (l : list tile_thread) :
  (forall th : tile_thread, In th l -> th_todo th = []) \/
  exists (r : nat) (th : tile_thread),
    nth_error l r = Some th /\ th_todo th <> [].
Proof.
  induction l as [| th l [IH | (r & th' & Hr & Hne)]].
  - left. intros th [].
  - destruct (th_todo th) as [| act rest] eqn:Htodo.
    + left. intros th' [<- | Hin]; auto.
    + right. exists 0%nat, th. split; [reflexivity | congruence].
  - right. now exists (S r), th'.
Qed.

Lemma finished_or_steps (g : Geography) (a : me_array) :
  array_inv g a ->
  all_finished a \/ exists a' : me_array, array_step a a'.
Proof.
  intros Hinv.
  destruct (finished_or_busy (arr_tiles a)) as [Hfin | (r & th & Hr & Hne)].
  - now left.
  - right. apply (some_thread_steps g a Hinv r).
    unfold todo_of. now rewrite Hr.
Qed.

(** ** How long the array runs *)

Lemma list_sum_cons (n : nat) (l : list nat) :
  list_sum (n :: l) = (n + list_sum l)%nat.
Proof. reflexivity. Qed.

Lemma list_sum_set_nth {A : Type} (f : A -> nat) (l : list A) :
  forall (i : nat) (x y : A),
    nth_error l i = Some y ->
    (list_sum (map f (set_nth l i x)) + f y = list_sum (map f l) + f x)%nat.
Proof.
  induction l as [| b l IH]; intros [| i] x y Hy; try discriminate.
  - cbn in Hy. injection Hy as ->. cbn [set_nth map].
    rewrite !list_sum_cons. lia.
  - cbn in Hy. cbn [set_nth map]. rewrite !list_sum_cons.
    specialize (IH i x y Hy). lia.
Qed.

Lemma work_left_step (a a' : me_array) (i : nat) :
  step_thread i a = Some a' -> work_left a = S (work_left a').
Proof.
  intros Hstep.
  destruct (step_thread_inv i a a' Hstep)
    as (th & act & rest & Hth & Htodo & Htiles & _).
  unfold work_left. rewrite Htiles.
  pose proof (list_sum_set_nth (fun th => length (th_todo th)) (arr_tiles a)
                i {| th_tile := th_tile th; th_todo := rest |} th Hth) as Hsum.
  cbn [th_todo] in Hsum. rewrite Htodo in Hsum. cbn [length] in Hsum. lia.
Qed.

Lemma work_left_run (a0 a : me_array) (n : nat) :
  array_run a0 n a -> (n + work_left a = work_left a0)%nat.
Proof.
  intros Hrun. induction Hrun as [a0 | a0 a a' n Hrun IH [i Hstep]].
  - reflexivity.
  - apply work_left_step in Hstep. lia.
Qed.

Lemma work_left_finished (a : me_array) :
  all_finished a <-> work_left a = 0%nat.
Proof.
  unfold all_finished, work_left.
  induction (arr_tiles a) as [| th l IH]; cbn [map].
  - split; [reflexivity | intros _ th []].
  - rewrite list_sum_cons. split.
    + intros Hall. rewrite (Hall th (or_introl eq_refl)). cbn [length Nat.add].
      apply IH. intros th' Hin. apply Hall. now right.
    + intros Hsum th' [<- | Hin].
      * apply length_zero_iff_nil. lia.
      * apply IH; [lia | exact Hin].
Qed.

Lemma count_but_one (c : nat) :
  forall s n : nat,
    list_sum (map (fun r => if (r =? c)%nat then 0 else 1)%nat (seq s n))
    = (n - (if (s <=? c)%nat && (c <? s + n)%nat then 1 else 0))%nat.
Proof.
  intros s n. revert s. induction n as [| n IH]; intros s.
  - reflexivity.
  - cbn [seq map]. rewrite list_sum_cons, IH.
    destruct (Nat.eqb_spec s c) as [-> | Hne].
    + destruct (Nat.leb_spec (S c) c); [lia |].
      destruct (Nat.leb_spec c c); [| lia].
      destruct (Nat.ltb_spec c (c + S n)); [| lia]. cbn [andb]. lia.
    + destruct (Nat.leb_spec (S s) c), (Nat.leb_spec s c);
        destruct (Nat.ltb_spec c (S s + n)), (Nat.ltb_spec c (s + S n));
        cbn [andb]; lia.
Qed.

Lemma list_sum_map_add {A : Type} (f h : A -> nat) (l : list A) :
  list_sum (map (fun x => f x + h x)%nat l)
  = (list_sum (map f l) + list_sum (map h l))%nat.
Proof.
  induction l as [| a l IH]; [reflexivity |].
  cbn [map]. rewrite !list_sum_cons. lia.
Qed.

Lemma work_left_start (g : Geography) (a0 : me_array) :
  geo_ok g -> 0x1000 * x_max g + y_max g <= Int.max_int ->
  me_array_start g = Ok a0 ->
  work_left a0 = (2 * (length (serpentine g) - 1))%nat.
Proof.
  intros Hg Hval Hstart.
  destruct (array_start_threads g Hg Hval)
    as (a & Ha & _ & _ & Hlen & Hth).
  rewrite Hstart in Ha. injection Ha as <-.
  assert (Htiles : arr_tiles a0
                   = map (fun r => {| th_tile := tile_at g r;
                                      th_todo := chain_program g r |})
                         (seq 0 (length (serpentine g)))).
  { apply nth_error_ext. intros r.
    rewrite nth_error_map, nth_error_seq.
    destruct (nth_error (arr_tiles a0) r) as [th |] eqn:Hnth.
    - assert (Hr : (r < length (serpentine g))%nat)
        by (rewrite <- Hlen; apply nth_error_Some; congruence).
      apply Nat.ltb_lt in Hr. rewrite Hr. cbn. f_equal. now apply Hth.
    - apply nth_error_None in Hnth. rewrite Hlen in Hnth.
      apply Nat.ltb_ge in Hnth. now rewrite Hnth. }
  unfold work_left. rewrite Htiles, map_map. cbn [th_todo].
  assert (HN : (0 < length (serpentine g))%nat).
  { rewrite (serpentine_length g Hg).
    pose proof (nx_size g Hg). pose proof (ny_size g Hg).
    destruct Hg as (_ & _ & _ & _ & Hxs & Hys & _). nia. }
  rewrite (map_ext _
             (fun r => (if (r =? 0)%nat then 0 else 1)
                       + (if (r =? length (serpentine g) - 1)%nat
                          then 0 else 1))%nat).
  - rewrite list_sum_map_add, !count_but_one. cbn [Nat.leb andb Nat.add].
    destruct (Nat.ltb_spec 0 (length (serpentine g))); [| lia].
    destruct (Nat.ltb_spec (length (serpentine g) - 1) (length (serpentine g)));
      [| lia].
    lia.
  - intros r. unfold chain_program. rewrite length_app.
    destruct (Nat.eqb_spec r 0), (Nat.eqb_spec (S r) (length (serpentine g))),
      (Nat.eqb_spec r (length (serpentine g) - 1)); cbn; lia.
Qed.

(** ** The end of the run *)

Lemma combine_successive {A B : Type} (f : A -> B) (d : A) (l : list A) :
  forall x : A,
    combine l (map f (x :: l))
    = map (fun r => (nth r (x :: l) d, f (nth (pred r) (x :: l) d)))
          (seq 1 (length l)).
Proof.
  induction l as [| y l IH]; intros x; [reflexivity |].
  cbn [map combine length seq]. f_equal.
  change (f y :: map f l) with (map f (y :: l)). rewrite IH.
  rewrite <- (seq_shift (length l) 1), map_map.
  apply map_ext_in. intros r Hr. apply in_seq in Hr.
  destruct r as [| r]; [lia |]. reflexivity.
Qed.

Lemma expected_reads_ranks (g : Geography) :
  expected_reads g
  = map (fun r => (tile_at g r, tile_value (tile_at g (pred r))))
        (seq 1 (length (serpentine g) - 1)).
Proof.
  unfold expected_reads, tile_at.
  destruct (serpentine g) as [| x l]; [reflexivity |].
  cbn [tl length].
  replace (S (length l) - 1)%nat with (length l) by lia.
  apply (combine_successive tile_value (0, 0) l x).
Qed.

Lemma finished_todo (a : me_array) (r : nat) :
  all_finished a -> todo_of a r = [].
Proof.
  intros Hfin. unfold todo_of.
  destruct (nth_error (arr_tiles a) r) as [th |] eqn:Hth; [| reflexivity].
  apply Hfin. now apply nth_error_In in Hth.
Qed.

Lemma array_inv_end (g : Geography) (a : me_array) :
  geo_ok g -> array_inv g a -> all_finished a ->
  arr_cs a = new_cascade_stream g /\
  Permutation (arr_read a) (expected_reads g).
Proof.
  intros Hg (Hlen & Hcap & _ & _ & Hcont & _ & ranks & Hlog & Hnd & Hranks)
         Hfin.
  split.
  - assert (Hall : Forall (eq (new_static_pipe 4))
                     (cascade_stream_pipes (arr_cs a))).
    { apply Forall_forall. intros p Hp.
      pose proof (Hcap p Hp) as Hc.
      apply In_nth_error in Hp. destruct Hp as [k Hk].
      pose proof (Hcont k) as Hk'. unfold slot_content in Hk' at 1.
      rewrite Hk in Hk'.
      assert (He : content p = []).
      { rewrite Hk'. destruct k as [| j]; [reflexivity |].
        rewrite (finished_todo a (S j) Hfin). cbn.
        now rewrite andb_false_r. }
      destruct p as [cap c]. cbn in Hc, He. subst. reflexivity. }
    apply Forall_eq_repeat in Hall. rewrite Hlen in Hall.
    destruct (arr_cs a) as [pipes]. cbn in Hall. subst pipes.
    unfold new_cascade_stream. f_equal.
    pose proof (pipes_one_more g Hg) as Hone.
    cbn in Hone. rewrite repeat_length in Hone. now rewrite Hone.
  - rewrite Hlog, expected_reads_ranks. apply Permutation_map.
    apply NoDup_Permutation; [exact Hnd | apply seq_NoDup |].
    intros r. rewrite Hranks, in_seq, (finished_todo a r Hfin). cbn.
    split; [intros [Hr _]; lia | intros Hr; split; [lia | reflexivity]].
Qed.

Lemma run_step_first (a a' a'' : me_array) (m : nat) :
  array_step a a' -> array_run a' m a'' -> array_run a (S m) a''.
Proof.
  intros Hstep Hrun. induction Hrun as [a' | a' b b' m Hrun IH Hb].
  - apply (run_more a a a'); [constructor | exact Hstep].
  - apply (run_more a b b'); auto.
Qed.

Lemma run_to_the_end (g : Geography) :
  forall (w : nat) (a : me_array),
    array_inv g a -> work_left a = w ->
    exists a_end : me_array, array_run a w a_end /\ all_finished a_end.
Proof.
  induction w as [| w IH]; intros a Hinv Hw.
  - exists a. split; [constructor | now apply work_left_finished].
  - destruct (finished_or_steps g a Hinv) as [Hfin | [a' [i Hstep]]].
    + apply work_left_finished in Hfin. lia.
    + pose proof (work_left_step a a' i Hstep) as Hw'.
      destruct (IH a' (array_inv_step g a a' i Hinv Hstep)) as (a_end & Hrun & Hend);
        [lia |].
      exists a_end. split; [| exact Hend].
      apply (run_step_first a a' a_end w); [now exists i | exact Hrun].
Qed.

Lemma run_schedule_run (schedule : list nat) :
  forall a a' : me_array,
    run_schedule schedule a = Some a' -> array_run a (length schedule) a'.
Proof.
  induction schedule as [| i schedule IH]; intros a a' Hrun; cbn in Hrun.
  - injection Hrun as <-. constructor.
  - destruct (step_thread i a) as [b |] eqn:Hstep; [| discriminate].
    apply (run_step_first a b a' (length schedule)); [now exists i |].
    now apply IH.
Qed.

(** ** The test of the cascade stream, over all the interleavings of its
    threads *)

(** X1: the array of the test starts without a fault, with a fresh
    cascade stream and one thread per tile; the tile of rank [r] of the
    serpentine order reads slot [r] unless it is the first, and then
    writes [x*0x1000 + y] to slot [r + 1] unless it is the last. *)
Theorem array_start_programs :
  forall g : Geography,
    geo_ok g -> 0x1000 * x_max g + y_max g <= Int.max_int ->
    exists a0 : me_array,
      me_array_start g = Ok a0 /\
      arr_cs a0 = new_cascade_stream g /\
      arr_read a0 = [] /\
      map th_tile (arr_tiles a0) = serpentine g /\
      forall (r : nat) (th : tile_thread),
        nth_error (arr_tiles a0) r = Some th ->
        th_todo th
        = (if (r =? 0)%nat then [] else [cs_read (Z.of_nat r)])
          ++ (if (S r =? length (serpentine g))%nat then []
              else [cs_write (Z.of_nat (S r))
                      (fst (th_tile th) * 0x1000 + snd (th_tile th))]).
Proof.
  intros g Hg Hval.
  destruct (array_start_threads g Hg Hval)
    as (a0 & Ha0 & Hcs & Hread & Hlen & Hth).
  exists a0. repeat apply conj; auto.
  - apply nth_error_ext. intros r. rewrite nth_error_map.
    destruct (nth_error (arr_tiles a0) r) as [th |] eqn:Hnth; cbn.
    + rewrite (Hth r th Hnth). cbn. symmetry. apply nth_error_nth'.
      rewrite <- Hlen. apply nth_error_Some. congruence.
    + symmetry. apply nth_error_None. rewrite <- Hlen.
      now apply nth_error_None.
  - intros r th Hnth. now rewrite (Hth r th Hnth).
Qed.

Lemma array_start_programs_witness :
  exists a0 : me_array,
    me_array_start (layout_size 3 2) = Ok a0 /\
    arr_cs a0 = new_cascade_stream (layout_size 3 2) /\
    arr_read a0 = [] /\
    map th_tile (arr_tiles a0) = serpentine (layout_size 3 2) /\
    forall (r : nat) (th : tile_thread),
      nth_error (arr_tiles a0) r = Some th ->
      th_todo th
      = (if (r =? 0)%nat then [] else [cs_read (Z.of_nat r)])
        ++ (if (S r =? length (serpentine (layout_size 3 2)))%nat then []
            else [cs_write (Z.of_nat (S r))
                    (fst (th_tile th) * 0x1000 + snd (th_tile th))]).
Proof.
  apply (array_start_programs (layout_size 3 2)).
  - geo_ok_by_computation.
  - vm_compute. discriminate.
Defined.

(** X2: whatever the interleaving of the threads, a value read by a tile
    [U] from its cascade input is [x*0x1000 + y] for the tile [(x, y)]
    that comes right before [U] in the serpentine order. *)
Theorem reads_come_from_predecessor :
  forall (g : Geography) (a0 a : me_array) (n : nat) (U : Z * Z) (v : Z),
    geo_ok g -> 0x1000 * x_max g + y_max g <= Int.max_int ->
    me_array_start g = Ok a0 -> array_run a0 n a ->
    In (U, v) (arr_read a) ->
    exists T : Z * Z, follows g T U /\ v = fst T * 0x1000 + snd T.
Proof.
  intros g a0 a n U v Hg Hval Hstart Hrun.
  apply (run_reads_from_predecessor g a).
  apply (array_inv_run g a0 a n); [| exact Hrun].
  now apply array_inv_start.
Qed.

Lemma reads_come_from_predecessor_witness :
  exists T : Z * Z,
    follows (layout_size 3 2) T (2, 1) /\ 8192 = fst T * 0x1000 + snd T.
Proof.
  assert (Hstart : exists a0 : me_array,
             me_array_start (layout_size 3 2) = Ok a0)
    by (eexists; vm_compute; reflexivity).
  destruct Hstart as [a0 Hstart].
  assert (Hrun : exists a : me_array,
             run_schedule [0; 1; 1; 2; 2; 3]%nat a0 = Some a /\
             In ((2, 1), 8192) (arr_read a)).
  { vm_compute in Hstart. injection Hstart as <-.
    eexists. split; [vm_compute; reflexivity |].
    cbn. right. right. now left. }
  destruct Hrun as (a & Hrun & Hin).
  apply (reads_come_from_predecessor (layout_size 3 2) a0 a 6 (2, 1) 8192).
  - geo_ok_by_computation.
  - vm_compute. discriminate.
  - exact Hstart.
  - apply (run_schedule_run [0; 1; 1; 2; 2; 3]%nat a0 a Hrun).
  - exact Hin.
Defined.

(** X3: the array never deadlocks.  In every state the run can reach,
    either every thread has finished or some thread can take a step;
    and from every such state the run can be carried on until every
    thread has finished. *)
Theorem array_never_deadlocks :
  forall (g : Geography) (a0 a : me_array) (n : nat),
    geo_ok g -> 0x1000 * x_max g + y_max g <= Int.max_int ->
    me_array_start g = Ok a0 -> array_run a0 n a ->
    (all_finished a \/ exists a' : me_array, array_step a a') /\
    (exists (m : nat) (a_end : me_array),
        array_run a m a_end /\ all_finished a_end).
Proof.
  intros g a0 a n Hg Hval Hstart Hrun.
  assert (Hinv : array_inv g a).
  { apply (array_inv_run g a0 a n); [| exact Hrun].
    now apply array_inv_start. }
  split.
  - now apply (finished_or_steps g).
  - exists (work_left a). now apply (run_to_the_end g).
Qed.

Lemma array_never_deadlocks_witness :
  exists a0 a : me_array,
    me_array_start (layout_size 3 2) = Ok a0 /\
    run_schedule [0; 1; 1; 2]%nat a0 = Some a /\
    (all_finished a \/ exists a' : me_array, array_step a a') /\
    (exists (m : nat) (a_end : me_array),
        array_run a m a_end /\ all_finished a_end).
Proof.
  eexists. eexists.
  split; [vm_compute; reflexivity |].
  split; [vm_compute; reflexivity |].
  eapply (array_never_deadlocks (layout_size 3 2) _ _ 4).
  - geo_ok_by_computation.
  - vm_compute. discriminate.
  - vm_compute. reflexivity.
  - apply (run_schedule_run [0; 1; 1; 2]%nat). vm_compute. reflexivity.
Defined.

(** X4: a run of the array takes at most two steps for each tile but one,
    a read and a write, and every thread has finished exactly when that
    many steps have been taken: no run goes on for ever. *)
Theorem array_run_length :
  forall (g : Geography) (a0 a : me_array) (n : nat),
    geo_ok g -> 0x1000 * x_max g + y_max g <= Int.max_int ->
    me_array_start g = Ok a0 -> array_run a0 n a ->
    (n <= 2 * (length (serpentine g) - 1))%nat /\
    (all_finished a <-> n = (2 * (length (serpentine g) - 1))%nat).
Proof.
  intros g a0 a n Hg Hval Hstart Hrun.
  pose proof (work_left_run a0 a n Hrun) as Hwork.
  rewrite (work_left_start g a0 Hg Hval Hstart) in Hwork.
  split; [lia |].
  rewrite work_left_finished. lia.
Qed.

Lemma array_run_length_witness :
  exists a0 a : me_array,
    me_array_start (layout_size 3 2) = Ok a0 /\
    run_schedule [0; 1; 1; 2; 2; 3; 3; 4; 4; 5]%nat a0 = Some a /\
    (10 <= 2 * (length (serpentine (layout_size 3 2)) - 1))%nat /\
    (all_finished a
     <-> 10%nat = (2 * (length (serpentine (layout_size 3 2)) - 1))%nat).
Proof.
  eexists. eexists.
  split; [vm_compute; reflexivity |].
  split; [vm_compute; reflexivity |].
  eapply (array_run_length (layout_size 3 2) _ _ 10).
  - geo_ok_by_computation.
  - vm_compute. discriminate.
  - vm_compute. reflexivity.
  - apply (run_schedule_run [0; 1; 1; 2; 2; 3; 3; 4; 4; 5]%nat).
    vm_compute. reflexivity.
Defined.

(** X5: when every thread has finished, the cascade stream is as it was
    before the run, every pipe empty, and the reads that were made are,
    in some order, one read by each tile but the first of the chain, of
    the value of the tile right before it. *)
Theorem array_run_end :
  forall (g : Geography) (a0 a : me_array) (n : nat),
    geo_ok g -> 0x1000 * x_max g + y_max g <= Int.max_int ->
    me_array_start g = Ok a0 -> array_run a0 n a ->
    all_finished a ->
    arr_cs a = new_cascade_stream g /\
    Permutation (arr_read a)
      (combine (tl (serpentine g))
         (map (fun T => fst T * 0x1000 + snd T) (serpentine g))).
Proof.
  intros g a0 a n Hg Hval Hstart Hrun Hfin.
  apply (array_inv_end g a Hg); [| exact Hfin].
  apply (array_inv_run g a0 a n); [| exact Hrun].
  now apply array_inv_start.
Qed.

Lemma array_run_end_witness :
  exists a0 a : me_array,
    me_array_start (layout_size 3 2) = Ok a0 /\
    run_schedule [0; 1; 1; 2; 2; 3; 3; 4; 4; 5]%nat a0 = Some a /\
    arr_cs a = new_cascade_stream (layout_size 3 2) /\
    Permutation (arr_read a)
      (combine (tl (serpentine (layout_size 3 2)))
         (map (fun T => fst T * 0x1000 + snd T)
              (serpentine (layout_size 3 2)))).
Proof.
  eexists. eexists.
  split; [vm_compute; reflexivity |].
  split; [vm_compute; reflexivity |].
  eapply (array_run_end (layout_size 3 2) _ _ 10).
  - geo_ok_by_computation.
  - vm_compute. discriminate.
  - vm_compute. reflexivity.
  - apply (run_schedule_run [0; 1; 1; 2; 2; 3; 3; 4; 4; 5]%nat).
    vm_compute. reflexivity.
  - intros th Hin. cbn in Hin.
    repeat (destruct Hin as [<- | Hin]; [reflexivity |]). destruct Hin.
Defined.

(** X6: all along the run a pipe of the cascade stream holds at most one
    value, so that no write ever finds its pipe full, and the two spare
    pipes, the first and the last of the array, stay empty. *)
Theorem cascade_pipes_occupancy :
  forall (g : Geography) (a0 a : me_array) (n k : nat) (p : static_pipe),
    geo_ok g -> 0x1000 * x_max g + y_max g <= Int.max_int ->
    me_array_start g = Ok a0 -> array_run a0 n a ->
    nth_error (cascade_stream_pipes (arr_cs a)) k = Some p ->
    (length (content p) <= 1)%nat /\
    (length (content p) < capacity p)%nat /\
    (k = 0%nat \/ k = length (serpentine g) -> content p = []).
Proof.
  intros g a0 a n k p Hg Hval Hstart Hrun Hp.
  assert (Hinv : array_inv g a).
  { apply (array_inv_run g a0 a n); [| exact Hrun].
    now apply array_inv_start. }
  destruct Hinv as (_ & Hcap & Hths & _ & Hcont & _).
  pose proof (Hcont k) as Hk. unfold slot_content in Hk at 1.
  rewrite Hp in Hk.
  rewrite (Hcap p (nth_error_In _ _ Hp)).
  assert (Hone : (length (content p) <= 1)%nat).
  { rewrite Hk. destruct k as [| j]; [cbn; lia |].
    destruct (negb _ && _); cbn; lia. }
  repeat split; [exact Hone | lia |].
  intros [-> | ->]; [exact Hk |].
  rewrite Hk. destruct (length (serpentine g)) as [| j] eqn:HN; [reflexivity |].
  assert (Hnone : todo_of a (S j) = []).
  { unfold todo_of.
    destruct (nth_error (arr_tiles a) (S j)) eqn:Hnth; [| reflexivity].
    assert ((S j < length (arr_tiles a))%nat)
      by (apply nth_error_Some; congruence).
    lia. }
  rewrite Hnone. cbn. now rewrite andb_false_r.
Qed.

Lemma cascade_pipes_occupancy_witness :
  exists a0 a : me_array,
    me_array_start (layout_size 3 2) = Ok a0 /\
    run_schedule [0; 1; 1]%nat a0 = Some a /\
    (length (content {| capacity := 4; content := [4096%Z] |}) <= 1)%nat /\
    (length (content {| capacity := 4; content := [4096%Z] |})
     < capacity {| capacity := 4; content := [4096%Z] |})%nat /\
    (2%nat = 0%nat \/ 2%nat = length (serpentine (layout_size 3 2)) ->
     content {| capacity := 4; content := [4096%Z] |} = []).
Proof.
  eexists. eexists.
  split; [vm_compute; reflexivity |].
  split; [vm_compute; reflexivity |].
  eapply (cascade_pipes_occupancy (layout_size 3 2) _ _ 3 2).
  - geo_ok_by_computation.
  - vm_compute. discriminate.
  - vm_compute. reflexivity.
  - apply (run_schedule_run [0; 1; 1]%nat). vm_compute. reflexivity.
  - vm_compute. reflexivity.
Defined.

(** ** The pipeline on the host *)

Lemma firstn_succ {A : Type} (l : list A) :
  forall (n : nat) (x : A),
    nth_error l n = Some x -> firstn (S n) l = firstn n l ++ [x].
Proof.
  induction l as [| a l IH]; intros [| n] x Hx; try discriminate.
  - cbn in Hx. injection Hx as ->. now destruct l.
  - cbn in Hx. cbn [firstn app]. f_equal. now apply IH.
Qed.

Section PipelineFacts.

Variable V : Type.

Lemma pipeline_executor_prefix (stages later : list (V -> V)) (input : V) :
  forall n : nat,
    (n <= length stages)%nat ->
    pipeline_executor n input (stages ++ later)
    = Some (fold_left (fun v stage => stage v) (firstn n stages) input).
Proof.
  induction n as [| n IH]; intros Hn; [reflexivity |].
  cbn [pipeline_executor].
  rewrite nth_error_app1 by lia.
  destruct (nth_error stages n) as [stage |] eqn:Hstage;
    [| apply nth_error_None in Hstage; lia].
  rewrite IH by lia. cbn [option_map]. f_equal.
  now rewrite (firstn_succ stages n stage Hstage), fold_left_app.
Qed.

Lemma pipeline_executor_beyond (stages : list (V -> V)) (input : V) :
  forall n : nat,
    (length stages < n)%nat -> pipeline_executor n input stages = None.
Proof.
  intros [| n] Hn; [lia |]. cbn [pipeline_executor].
  destruct (nth_error stages n) as [stage |] eqn:Hstage; [| reflexivity].
  assert ((n < length stages)%nat) by (apply nth_error_Some; congruence).
  lia.
Qed.

Lemma host_pipeliner_fold (stages : list (V -> V)) (input : V) :
  host_pipeliner stages input
  = Some (fold_left (fun v stage => stage v) stages input).
Proof.
  unfold host_pipeliner.
  rewrite <- (app_nil_r stages) at 2.
  rewrite pipeline_executor_prefix by lia.
  now rewrite firstn_all.
Qed.

End PipelineFacts.

(** X7: [pipeline_executor<n>] applies the first [n] stages to its input,
    in their order, and nothing of the stages after them: with [n] no
    more than the number of stages it returns the left-to-right
    application of the first [n] stages, whatever stages follow; with
    more than the stages there are, the program does not compile. *)
Theorem pipeline_executor_stages :
  forall (V : Type) (stages later : list (V -> V)) (input : V) (n : nat),
    ((n <= length stages)%nat ->
     pipeline_executor n input (stages ++ later)
     = Some (fold_left (fun v stage => stage v) (firstn n stages) input)) /\
    ((length stages < n)%nat -> pipeline_executor n input stages = None).
Proof.
  intros V stages later input n. split.
  - apply pipeline_executor_prefix.
  - apply pipeline_executor_beyond.
Qed.

Lemma pipeline_executor_stages_witness :
  pipeline_executor 2 5 ([Z.add 3; Z.mul 7; fun v => v * v] ++ [Z.opp])
  = Some 56 /\
  pipeline_executor 4 5 [Z.add 3; Z.mul 7; fun v => v * v] = None.
Proof.
  split.
  - apply (proj1 (pipeline_executor_stages Z
                    [Z.add 3; Z.mul 7; fun v => v * v] [Z.opp] 5 2)).
    cbn; lia.
  - apply (proj2 (pipeline_executor_stages Z
                    [Z.add 3; Z.mul 7; fun v => v * v] [] 5 4)).
    cbn; lia.
Defined.

(** X8: pipelines compose.  The host pipeliner always returns a value;
    the pipeliner of no stage returns its input, and the pipeliner of
    stages followed by more stages is the pipeliner of the second ones
    applied to the result of the pipeliner of the first ones. *)
Theorem host_pipeliner_compose :
  forall (V : Type) (first second : list (V -> V)) (input : V),
    host_pipeliner [] input = Some input /\
    exists v : V,
      host_pipeliner first input = Some v /\
      host_pipeliner (first ++ second) input = host_pipeliner second v.
Proof.
  intros V first second input. split; [reflexivity |].
  exists (fold_left (fun v stage => stage v) first input).
  split; [apply host_pipeliner_fold |].
  now rewrite !host_pipeliner_fold, fold_left_app.
Qed.

(** ** The port accessors on a port of the switch *)




(** ** The grid of frames *)

Lemma rank_div_mod (w x y : nat) :
  (x < w)%nat -> ((w * y + x) mod w = x /\ (w * y + x) / w = y)%nat.
Proof.
  intros Hx. split.
  - rewrite Nat.add_comm, Nat.mul_comm, Nat.Div0.mod_add.
    now apply Nat.mod_small.
  - rewrite Nat.add_comm, Nat.mul_comm, Nat.div_add by lia.
    rewrite Nat.div_small by lia. reflexivity.
Qed.

Lemma emplace_frame_made (fg : graphics.frame_grid) (x y : nat) :
  graphics.ny fg <= Int.max_int ->
  (x < Z.to_nat (graphics.nx fg))%nat -> Z.of_nat y < graphics.ny fg ->
  frames_made fg (Z.to_nat (graphics.nx fg) * y + x) ->
  exists fg' : graphics.frame_grid,
    graphics.emplace_frame (Z.of_nat x) (Z.of_nat y) fg = graphics.Return fg' /\
    graphics.nx fg' = graphics.nx fg /\ graphics.ny fg' = graphics.ny fg /\
    graphics.done fg' = graphics.done fg /\
    frames_made fg' (Z.to_nat (graphics.nx fg) * y + S x).
Proof.
  intros Hny Hx Hy [Hframes Hgrid].
  unfold graphics.emplace_frame, Int.sub.
  rewrite max_int_value in Hny.
  rewrite checked_in_range by (rewrite max_int_value, min_int_value; lia).
  cbn [graphics.int graphics.and_then].
  rewrite checked_in_range by (rewrite max_int_value, min_int_value; lia).
  cbn [graphics.int graphics.and_then].
  eexists. split; [reflexivity |]. unfold frames_made.
  cbn [graphics.frames graphics.grid graphics.nx graphics.ny graphics.done].
  repeat split.
  - rewrite Hframes, Nat.add_succ_r, seq_S, map_app. cbn [map Nat.add].
    unfold frame_of_rank.
    destruct (rank_div_mod _ x y Hx) as [-> ->]. reflexivity.
  - rewrite Hgrid, Nat.add_succ_r, seq_S, map_app. cbn [map Nat.add].
    unfold cell_of_rank.
    destruct (rank_div_mod _ x y Hx) as [-> ->].
    rewrite Hframes, length_map, length_seq. reflexivity.
Qed.

Lemma row_made (fg : graphics.frame_grid) (y : nat) :
  graphics.ny fg <= Int.max_int -> Z.of_nat y < graphics.ny fg ->
  forall (n x : nat),
    (x + n <= Z.to_nat (graphics.nx fg))%nat ->
    forall fg0 : graphics.frame_grid,
      graphics.nx fg0 = graphics.nx fg -> graphics.ny fg0 = graphics.ny fg ->
      frames_made fg0 (Z.to_nat (graphics.nx fg) * y + x) ->
      exists fg' : graphics.frame_grid,
        graphics.for_count n (Z.of_nat x)
          (fun x => graphics.emplace_frame x (Z.of_nat y)) fg0
        = graphics.Return fg' /\
        graphics.nx fg' = graphics.nx fg /\ graphics.ny fg' = graphics.ny fg /\
        graphics.done fg' = graphics.done fg0 /\
        frames_made fg' (Z.to_nat (graphics.nx fg) * y + (x + n)).
Proof.
  intros Hny Hy. induction n as [| n IH]; intros x Hx fg0 Hnx0 Hny0 Hmade.
  - exists fg0. rewrite Nat.add_0_r.
    split; [reflexivity |]. split; [exact Hnx0 |]. split; [exact Hny0 |].
    split; [reflexivity | exact Hmade].
  - cbn [graphics.for_count].
    destruct (emplace_frame_made fg0 x y) as (fg1 & Hfg1 & Hnx1 & Hny1 & Hd1 & Hm1).
    { now rewrite Hny0. }
    { rewrite Hnx0. lia. }
    { now rewrite Hny0. }
    { now rewrite Hnx0. }
    rewrite Hfg1. cbn [graphics.and_then]. rewrite Hnx0 in Hm1.
    replace (Z.of_nat x + 1) with (Z.of_nat (S x)) by lia.
    destruct (IH (S x)) with (fg0 := fg1) as (fg' & Hrun & Hnx' & Hny' & Hd' & Hm');
      try congruence; try lia.
    exists fg'.
    split; [exact Hrun |]. split; [exact Hnx' |]. split; [exact Hny' |].
    split; [congruence |].
    now replace (x + S n)%nat with (S x + n)%nat by lia.
Qed.

Lemma rows_made (fg : graphics.frame_grid) :
  graphics.ny fg <= Int.max_int ->
  forall (m y : nat) (fg0 : graphics.frame_grid),
    Z.of_nat (y + m) <= graphics.ny fg ->
    graphics.nx fg0 = graphics.nx fg -> graphics.ny fg0 = graphics.ny fg ->
    frames_made fg0 (Z.to_nat (graphics.nx fg) * y) ->
    exists fg' : graphics.frame_grid,
      graphics.for_count m (Z.of_nat y)
        (fun y => graphics.for_int 0 (graphics.nx fg)
                    (fun x => graphics.emplace_frame x y)) fg0
      = graphics.Return fg' /\
      graphics.nx fg' = graphics.nx fg /\ graphics.ny fg' = graphics.ny fg /\
      graphics.done fg' = graphics.done fg0 /\
      frames_made fg' (Z.to_nat (graphics.nx fg) * (y + m)).
Proof.
  intros Hny. induction m as [| m IH]; intros y fg0 Hy Hnx0 Hny0 Hmade.
  - exists fg0. rewrite Nat.add_0_r.
    split; [reflexivity |]. split; [exact Hnx0 |]. split; [exact Hny0 |].
    split; [reflexivity | exact Hmade].
  - cbn [graphics.for_count]. unfold graphics.for_int at 1.
    rewrite Z.sub_0_r.
    destruct (row_made fg y Hny) with (n := Z.to_nat (graphics.nx fg))
                                      (x := 0%nat) (fg0 := fg0)
      as (fg1 & Hfg1 & Hnx1 & Hny1 & Hd1 & Hm1); auto; try lia.
    { now rewrite Nat.add_0_r. }
    change (Z.of_nat 0) with 0 in Hfg1. rewrite Hfg1.
    cbn [graphics.and_then].
    replace (Z.of_nat y + 1) with (Z.of_nat (S y)) by lia.
    destruct (IH (S y) fg1) as (fg' & Hrun & Hnx' & Hny' & Hd' & Hm');
      auto; try lia.
    { now replace (Z.to_nat (graphics.nx fg) * S y)%nat
        with (Z.to_nat (graphics.nx fg) * y + (0 + Z.to_nat (graphics.nx fg)))%nat
        by lia. }
    exists fg'.
    split; [exact Hrun |]. split; [exact Hnx' |]. split; [exact Hny' |].
    split; [congruence |].
    now replace (y + S m)%nat with (S y + m)%nat by lia.
Qed.

Lemma new_frame_grid_made (nx ny : Z) :
  ny <= Int.max_int ->
  exists fg : graphics.frame_grid,
    graphics.new_frame_grid nx ny = graphics.Return fg /\
    graphics.nx fg = nx /\ graphics.ny fg = ny /\
    graphics.done fg = false /\
    graphics.frames fg
    = map (frame_of_rank (Z.to_nat nx)) (seq 0 (Z.to_nat nx * Z.to_nat ny)) /\
    graphics.grid fg
    = map (cell_of_rank (Z.to_nat nx) ny) (seq 0 (Z.to_nat nx * Z.to_nat ny))
      ++ [graphics.add_close_button].
Proof.
  intros Hny. unfold graphics.new_frame_grid.
  unfold graphics.for_int at 1. rewrite Z.sub_0_r.
  set (fg0 := {| graphics.grid := []; graphics.frames := [];
                 graphics.nx := nx; graphics.ny := ny;
                 graphics.done := false |}).
  destruct (Z.le_gt_cases ny 0) as [Hneg | Hpos].
  - replace (Z.to_nat ny) with 0%nat by lia.
    rewrite Nat.mul_0_r. cbn. eexists. repeat split.
  - destruct (rows_made fg0 Hny (Z.to_nat ny) 0 fg0)
      as (fg' & Hrun & Hnx' & Hny' & Hd' & Hframes & Hgrid); auto.
    { cbn. lia. }
    { rewrite Nat.mul_0_r. split; reflexivity. }
    change (Z.of_nat 0) with 0 in Hrun. cbn [graphics.nx fg0] in Hrun.
    rewrite Hrun. cbn [graphics.and_then].
    eexists. split; [reflexivity |].
    cbn [graphics.frames graphics.grid graphics.nx graphics.ny graphics.done].
    rewrite Hnx', Hny' in *.
    cbn [graphics.nx graphics.ny fg0 Nat.add] in Hframes, Hgrid.
    rewrite Hd', Hframes, Hgrid. repeat split.
Qed.

Lemma get_frame_rank (fg : graphics.frame_grid) (x y : Z) :
  Int.min_int <= graphics.nx fg * y <= Int.max_int ->
  Int.min_int <= x + graphics.nx fg * y <= Int.max_int ->
  graphics.get_frame fg x y
  = if (0 <=? x + graphics.nx fg * y)
       && (x + graphics.nx fg * y <? Z.of_nat (length (graphics.frames fg)))
    then graphics.Return (Z.to_nat (x + graphics.nx fg * y))
    else graphics.Throw graphics.out_of_range.
Proof.
  intros Hm Hs. unfold graphics.get_frame, Int.mul, Int.add.
  rewrite (checked_in_range _ Hm). cbn [graphics.int graphics.and_then].
  rewrite (checked_in_range _ Hs). cbn [graphics.int graphics.and_then].
  unfold graphics.vector_at.
  destruct (Z.ltb_spec (x + graphics.nx fg * y) 0) as [Hneg | Hpos].
  - destruct (Z.leb_spec 0 (x + graphics.nx fg * y)); [lia | reflexivity].
  - destruct (Z.leb_spec 0 (x + graphics.nx fg * y)); [| lia]. cbn [andb].
    destruct (nth_error (graphics.frames fg)
                (Z.to_nat (x + graphics.nx fg * y))) as [f |] eqn:Hf.
    + assert ((Z.to_nat (x + graphics.nx fg * y)
               < length (graphics.frames fg))%nat)
        by (apply nth_error_Some; congruence).
      destruct (Z.ltb_spec (x + graphics.nx fg * y)
                  (Z.of_nat (length (graphics.frames fg)))); [reflexivity | lia].
    + apply nth_error_None in Hf.
      destruct (Z.ltb_spec (x + graphics.nx fg * y)
                  (Z.of_nat (length (graphics.frames fg)))); [lia | reflexivity].
Qed.

Lemma frame_of_rank_at (w x y : nat) :
  (x < w)%nat ->
  frame_of_rank w (x + w * y) = made_frame (Z.of_nat x) (Z.of_nat y).
Proof.
  intros Hx. unfold frame_of_rank.
  rewrite (Nat.add_comm x).
  now destruct (rank_div_mod w x y Hx) as [-> ->].
Qed.

(** X10: a frame grid of [nx] by [ny] tiles is made without a fault, and
    [get_frame(x, y)] on a tile of the grid returns the frame made for
    that tile: labelled [Tile(x,y)], etched out, with a border of 1, and
    attached to the grid at column [x] and row [ny - y - 1], the lower
    [y] further down. *)
Theorem frame_grid_round_trip :
  forall nx ny x y : Z,
    nx * ny <= Int.max_int -> 0 <= x < nx -> 0 <= y < ny ->
    exists (fg : graphics.frame_grid) (k : nat),
      graphics.new_frame_grid nx ny = graphics.Return fg /\
      graphics.get_frame fg x y = graphics.Return k /\
      nth_error (graphics.frames fg) k
      = Some {| graphics.label := graphics.tile_label x y;
                graphics.shadow_type := graphics.SHADOW_ETCHED_OUT;
                graphics.border_width := 1;
                graphics.child := None |} /\
      In (graphics.attach k x (ny - y - 1) 1 1) (graphics.grid fg).
Proof.
  intros nx ny x y Hmax Hx Hy.
  assert (Hny : ny <= Int.max_int) by nia.
  destruct (new_frame_grid_made nx ny Hny)
    as (fg & Hfg & Hnx & Hny' & _ & Hframes & Hgrid).
  assert (Hk : Z.to_nat (x + nx * y) = (Z.to_nat x + Z.to_nat nx * Z.to_nat y)%nat)
    by nia.
  assert (Hlt : (Z.to_nat x + Z.to_nat nx * Z.to_nat y
                 < Z.to_nat nx * Z.to_nat ny)%nat) by nia.
  exists fg, (Z.to_nat (x + nx * y)).
  split; [exact Hfg |]. split; [| split].
  - rewrite get_frame_rank; rewrite Hnx.
    + rewrite Hframes, length_map, length_seq.
      destruct (Z.leb_spec 0 (x + nx * y)); [| nia].
      destruct (Z.ltb_spec (x + nx * y)
                  (Z.of_nat (Z.to_nat nx * Z.to_nat ny))); [reflexivity | nia].
    + rewrite max_int_value in *. rewrite min_int_value. nia.
    + rewrite max_int_value in *. rewrite min_int_value. nia.
  - rewrite Hframes, Hk, nth_error_map, nth_error_seq.
    apply Nat.ltb_lt in Hlt. rewrite Hlt. cbn [option_map Nat.add]. f_equal.
    rewrite frame_of_rank_at by lia.
    unfold made_frame. now rewrite !Z2Nat.id by lia.
  - rewrite Hgrid. apply in_or_app. left. apply in_map_iff.
    exists (Z.to_nat x + Z.to_nat nx * Z.to_nat y)%nat. split.
    + unfold cell_of_rank. rewrite (Nat.add_comm (Z.to_nat x)).
      destruct (rank_div_mod (Z.to_nat nx) (Z.to_nat x) (Z.to_nat y))
        as [-> ->]; [lia |].
      rewrite !Z2Nat.id by lia. f_equal. lia.
    + apply in_seq. lia.
Qed.

(** X11: [get_frame] checks the rank [x + nx*y], not [x] and [y]: the
    grid has [nx * ny] frames; when the rank is the rank of one of them,
    the frame returned is the frame of the tile
    [((x + nx*y) mod nx, (x + nx*y) / nx)], also with [x] outside of its
    row; otherwise [std::out_of_range] is thrown. *)
Theorem get_frame_unchecked_row :
  forall (nx ny x y : Z) (fg : graphics.frame_grid),
    ny <= Int.max_int ->
    graphics.new_frame_grid nx ny = graphics.Return fg ->
    Int.min_int <= nx * y <= Int.max_int ->
    Int.min_int <= x + nx * y <= Int.max_int ->
    length (graphics.frames fg) = (Z.to_nat nx * Z.to_nat ny)%nat /\
    (0 <= x + nx * y < Z.of_nat (length (graphics.frames fg)) ->
     graphics.get_frame fg x y = graphics.Return (Z.to_nat (x + nx * y)) /\
     option_map graphics.label
       (nth_error (graphics.frames fg) (Z.to_nat (x + nx * y)))
     = Some (graphics.tile_label ((x + nx * y) mod nx) ((x + nx * y) / nx))) /\
    (~ (0 <= x + nx * y < Z.of_nat (length (graphics.frames fg))) ->
     graphics.get_frame fg x y = graphics.Throw graphics.out_of_range).
Proof.
  intros nx ny x y fg Hny Hfg Hm Hs.
  destruct (new_frame_grid_made nx ny Hny)
    as (fg' & Hfg' & Hnx & Hny' & _ & Hframes & _).
  rewrite Hfg in Hfg'. injection Hfg' as <-.
  assert (Hlen : length (graphics.frames fg) = (Z.to_nat nx * Z.to_nat ny)%nat)
    by (rewrite Hframes, length_map, length_seq; reflexivity).
  split; [exact Hlen |].
  rewrite <- Hnx in Hm, Hs.
  pose proof (get_frame_rank fg x y Hm Hs) as Hget. rewrite Hnx in Hget.
  split.
  - intros [Hlo Hhi].
    apply Z.leb_le in Hlo. apply Z.ltb_lt in Hhi.
    rewrite Hlo, Hhi in Hget. split; [exact Hget |].
    apply Z.leb_le in Hlo. apply Z.ltb_lt in Hhi.
    rewrite Hframes, nth_error_map, nth_error_seq.
    rewrite Hlen in Hhi.
    destruct (Nat.ltb_spec (Z.to_nat (x + nx * y))
                (Z.to_nat nx * Z.to_nat ny)) as [_ | Hge]; [| lia].
    cbn [option_map Nat.add graphics.label frame_of_rank made_frame].
    unfold frame_of_rank, made_frame. cbn [graphics.label].
    assert (Hnxpos : 0 < nx) by nia.
    rewrite Nat2Z.inj_mod, Nat2Z.inj_div, !Z2Nat.id by lia.
    reflexivity.
  - intros Hout.
    destruct (Z.leb_spec 0 (x + nx * y)) as [Hlo | Hlo]; [| exact Hget].
    destruct (Z.ltb_spec (x + nx * y)
                (Z.of_nat (length (graphics.frames fg)))) as [Hhi | Hhi];
      [| exact Hget].
    exfalso. apply Hout. now split.
Qed.


Lemma for_count_invariant {S : Type} (body : Z -> S -> graphics.outcome S) :
  forall (n : nat) (i0 : Z) (P : nat -> S -> Prop),
    (forall (k : nat) (s : S),
        (k < n)%nat -> P k s ->
        exists s' : S,
          body (i0 + Z.of_nat k) s = graphics.Return s' /\ P (Datatypes.S k) s') ->
    forall s : S,
      P 0%nat s ->
      exists s' : S, graphics.for_count n i0 body s = graphics.Return s' /\ P n s'.
Proof.
  induction n as [| n IH]; intros i0 P Hbody s Hs.
  - now exists s.
  - cbn [graphics.for_count].
    destruct (Hbody 0%nat s) as (s1 & Hs1 & HP1); [lia | exact Hs |].
    rewrite Z.add_0_r in Hs1. rewrite Hs1. cbn [graphics.and_then].
    apply (IH (i0 + 1) (fun k => P (Datatypes.S k))); [| exact HP1].
    intros k s2 Hk HP2.
    destruct (Hbody (Datatypes.S k) s2) as (s3 & Hs3 & HP3); [lia | exact HP2 |].
    exists s3. split; [| exact HP3].
    now replace (i0 + 1 + Z.of_nat k) with (i0 + Z.of_nat (Datatypes.S k)) by lia.
Qed.

Lemma set_nth_map_seq {A : Type} (F : nat -> A) (n k : nat) (v : A) :
  set_nth (map F (seq 0 n)) k v
  = map (fun i => if (i =? k)%nat then v else F i) (seq 0 n).
Proof.
  apply nth_error_ext. intros i.
  rewrite nth_error_set_nth, !nth_error_map, nth_error_seq, length_map, length_seq.
  destruct (Nat.eqb_spec i k) as [-> | Hne]; cbn [andb].
  - destruct (k <? n)%nat; cbn; [| reflexivity].
    now rewrite Nat.eqb_refl.
  - destruct (i <? n)%nat; cbn; [| reflexivity].
    destruct (Nat.eqb_spec i k); [contradiction | reflexivity].
Qed.

Lemma emplace_image_made (nx ny image_x image_y zoom : Z) (x y : nat) :
  nx * ny <= Int.max_int ->
  Int.min_int <= image_x * zoom <= Int.max_int ->
  Int.min_int <= image_y * zoom <= Int.max_int ->
  (x < Z.to_nat nx)%nat -> (y < Z.to_nat ny)%nat ->
  graphics.emplace_image (Z.of_nat x) (Z.of_nat y)
    (images_made nx ny image_x image_y zoom (Z.to_nat nx * y + x))
  = graphics.Return
      (images_made nx ny image_x image_y zoom (S (Z.to_nat nx * y + x))).
Proof.
  intros Hmax Hw Hh Hx Hy.
  set (w := Z.to_nat nx). set (c := (w * y + x)%nat).
  assert (Hc : (c < w * Z.to_nat ny)%nat) by (subst c w; nia).
  assert (Hidx : Z.of_nat x + nx * Z.of_nat y = Z.of_nat c) by (subst c w; nia).
  unfold graphics.emplace_image.
  rewrite get_frame_rank;
    cbn [images_made graphics.base graphics.nx graphics.frames];
    rewrite ?Hidx, ?length_map, ?length_seq.
  2: { rewrite max_int_value in *. rewrite min_int_value. nia. }
  2: { rewrite max_int_value in *. rewrite min_int_value. nia. }
  fold w.
  destruct (Z.leb_spec 0 (Z.of_nat c)); [| lia].
  destruct (Z.ltb_spec (Z.of_nat c) (Z.of_nat (w * Z.to_nat ny))); [| lia].
  cbn [andb graphics.and_then]. rewrite Nat2Z.id.
  unfold Int.mul.
  cbn [images_made graphics.image_x graphics.image_y graphics.zoom
       graphics.images graphics.work_to_dispatch graphics.emitted
       graphics.base graphics.frames].
  rewrite (checked_in_range _ Hw), (checked_in_range _ Hh).
  cbn [graphics.int graphics.and_then].
  rewrite nth_error_map, nth_error_seq.
  apply Nat.ltb_lt in Hc. rewrite Hc. cbn [option_map Nat.add].
  rewrite Nat.ltb_irrefl, repeat_length, set_nth_map_seq.
  unfold images_made, graphics.with_frames. cbn [graphics.grid graphics.nx graphics.ny graphics.done].
  fold w. fold c.
  assert (Hfs : map (fun i : nat =>
                       if (i =? c)%nat then graphics.add c (frame_of_rank w c)
                       else if (i <? c)%nat
                            then graphics.add i (frame_of_rank w i)
                            else frame_of_rank w i) (seq 0 (w * Z.to_nat ny))
                = map (fun k : nat =>
                         if (k <? S c)%nat
                         then graphics.add k (frame_of_rank w k)
                         else frame_of_rank w k) (seq 0 (w * Z.to_nat ny))).
  { apply map_ext. intros k.
    destruct (Nat.eqb_spec k c) as [-> | Hne].
    - destruct (Nat.ltb_spec c (S c)); [reflexivity | lia].
    - destruct (Nat.ltb_spec k c), (Nat.ltb_spec k (S c));
        try reflexivity; lia. }
  rewrite Hfs.
  assert (Himgs : forall (A : Type) (a : A) (n : nat),
             repeat a n ++ [a] = repeat a (S n)).
  { intros A a n. induction n as [| n IH]; cbn; [reflexivity |].
    now rewrite IH. }
  now rewrite Himgs.
Qed.

Lemma new_image_grid_made (nx ny image_x image_y zoom : Z) :
  ny <= Int.max_int -> nx * ny <= Int.max_int ->
  Int.min_int <= image_x * zoom <= Int.max_int ->
  Int.min_int <= image_y * zoom <= Int.max_int ->
  graphics.new_image_grid nx ny image_x image_y zoom
  = graphics.Return
      (images_made nx ny image_x image_y zoom (Z.to_nat nx * Z.to_nat ny)).
Proof.
  intros Hny Hmax Hw Hh. unfold graphics.new_image_grid.
  destruct (new_frame_grid_made nx ny Hny)
    as (fg & -> & Hnx & Hny' & Hdone & Hframes & Hgrid).
  cbn [graphics.and_then].
  assert (Hstart : {| graphics.base := fg; graphics.images := [];
                      graphics.image_x := image_x; graphics.image_y := image_y;
                      graphics.zoom := zoom;
                      graphics.work_to_dispatch := None;
                      graphics.emitted := 0 |}
                   = images_made nx ny image_x image_y zoom 0).
  { unfold images_made. cbn [repeat]. f_equal.
    destruct fg as [gr fs fnx fny fdone]. cbn in *. subst.
    f_equal. }
  rewrite Hstart. unfold graphics.for_int at 1. rewrite Z.sub_0_r.
  destruct (for_count_invariant
              (fun y => graphics.for_int 0 nx
                          (fun x => graphics.emplace_image x y))
              (Z.to_nat ny) 0
              (fun j ig => ig = images_made nx ny image_x image_y zoom
                                  (Z.to_nat nx * j)))
    with (s := images_made nx ny image_x image_y zoom 0)
    as (ig & Hrun & ->).
  - intros j ig Hj ->. unfold graphics.for_int. rewrite Z.sub_0_r.
    destruct (for_count_invariant
                (fun x => graphics.emplace_image x (0 + Z.of_nat j))
                (Z.to_nat nx) 0
                (fun i ig => ig = images_made nx ny image_x image_y zoom
                                    (Z.to_nat nx * j + i)))
      with (s := images_made nx ny image_x image_y zoom (Z.to_nat nx * j))
      as (ig & Hrow & ->).
    + intros i ig Hi ->. eexists. split; [| reflexivity].
      rewrite !Z.add_0_l, Nat.add_succ_r.
      now apply emplace_image_made.
    + now rewrite Nat.add_0_r.
    + eexists. split; [exact Hrow |]. f_equal. lia.
  - now rewrite Nat.mul_0_r.
  - exact Hrun.
Qed.

Section DrawingFacts.

Variable value : Type.
Variable grey : value -> value -> value -> Z.
Variable ig : graphics.image_grid.
Variable data : Z -> Z -> value.
Variables extent0 extent1 : Z.
Variables min_value max_value : value.

Hypothesis Hx : 0 <= graphics.image_x ig.
Hypothesis Hy : 0 <= graphics.image_y ig.
Hypothesis Hstride : 3 * graphics.image_x ig <= Int.max_int.
Hypothesis Hsize : 3 * graphics.image_x ig * graphics.image_y ig <= Int.max_int.

Let size : nat := Z.to_nat (3 * graphics.image_x ig * graphics.image_y ig).

Let drawn (rows cols : Z) : list (option Z) :=
  map (byte_drawn grey ig data extent1 min_value max_value rows cols)
      (seq 0 size).

Lemma store_drawn (F : nat -> option Z) (row col c v : Z) :
  0 <= row < graphics.image_y ig -> 0 <= col < graphics.image_x ig ->
  0 <= c < 3 ->
  graphics.store ig row col c v (map F (seq 0 size))
  = graphics.Return
      (map (fun n => if (n =? Z.to_nat (3 * (row * graphics.image_x ig + col) + c))%nat
                     then Some v else F n) (seq 0 size)).
Proof.
  intros Hrow Hcol Hc. unfold graphics.store.
  destruct (Z.leb_spec 0 row); [| lia].
  destruct (Z.ltb_spec row (graphics.image_y ig)); [| lia].
  destruct (Z.leb_spec 0 col); [| lia].
  destruct (Z.ltb_spec col (graphics.image_x ig)); [| lia].
  cbn [andb]. rewrite length_map, length_seq.
  destruct (Z.ltb_spec (3 * (row * graphics.image_x ig + col) + c)
              (Z.of_nat size)) as [_ | Hout]; [| subst size; nia].
  now rewrite set_nth_map_seq.
Qed.

Lemma draw_pixel_drawn (j i : Z) :
  0 <= j < graphics.image_y ig ->
  0 <= i < graphics.image_x ig ->
  graphics.draw_pixel value grey ig data min_value max_value j i (drawn j i)
  = graphics.Return (drawn j (i + 1)).
Proof.
  intros Hj Hi. unfold graphics.draw_pixel, Int.sub.
  pose proof Hsize as Hsz. rewrite max_int_value in Hsz.
  assert (Hiy : graphics.image_y ig <= 2147483647) by nia.
  rewrite checked_in_range by (rewrite max_int_value, min_int_value; lia).
  cbn [graphics.int graphics.and_then].
  rewrite checked_in_range by (rewrite max_int_value, min_int_value; lia).
  cbn [graphics.int graphics.and_then].
  set (row := graphics.image_y ig - 1 - j).
  set (v := grey (data j i) min_value max_value).
  unfold drawn.
  rewrite store_drawn by (subst row; lia). cbn [graphics.and_then].
  rewrite store_drawn by (subst row; lia). cbn [graphics.and_then].
  rewrite store_drawn by (subst row; lia).
  f_equal. apply map_ext_in. intros n Hn. apply in_seq in Hn.
  unfold byte_drawn.
  set (w := graphics.image_x ig) in *.
  set (pixel := Z.of_nat n / 3).
  assert (Hn3 : Z.of_nat n = 3 * pixel + Z.of_nat n mod 3)
    by (subst pixel; apply Z.div_mod; lia).
  pose proof (Z.mod_pos_bound (Z.of_nat n) 3 ltac:(lia)) as Hm3.
  assert (Hw : 0 < w) by lia.
  pose proof (Z.div_mod pixel w ltac:(lia)) as Hpw.
  pose proof (Z.mod_pos_bound pixel w Hw) as Hmw.
  destruct (Z.eq_dec pixel (row * w + i)) as [Hp | Hp].
  - assert (Hrow : pixel / w = row) by (subst row; nia).
    assert (Hcol : pixel mod w = i) by nia.
    rewrite Hrow, Hcol. subst row.
    replace (graphics.image_y ig - 1 - (graphics.image_y ig - 1 - j)) with j
      by lia.
    rewrite Z.eqb_refl.
    destruct (Z.ltb_spec i (i + 1)); [| lia].
    rewrite orb_true_r.
    destruct (Nat.eqb_spec n (Z.to_nat (3 * ((graphics.image_y ig - 1 - j) * w + i) + 2)));
      [reflexivity |].
    destruct (Nat.eqb_spec n (Z.to_nat (3 * ((graphics.image_y ig - 1 - j) * w + i) + 1)));
      [reflexivity |].
    destruct (Nat.eqb_spec n (Z.to_nat (3 * ((graphics.image_y ig - 1 - j) * w + i) + 0)));
      [reflexivity |].
    lia.
  - destruct (Nat.eqb_spec n (Z.to_nat (3 * (row * w + i) + 2))); [lia |].
    destruct (Nat.eqb_spec n (Z.to_nat (3 * (row * w + i) + 1))); [lia |].
    destruct (Nat.eqb_spec n (Z.to_nat (3 * (row * w + i) + 0))); [lia |].
    assert (Hdiff : ~ (graphics.image_y ig - 1 - pixel / w = j
                       /\ pixel mod w = i)) by (subst row; nia).
    destruct (Z.eqb_spec (graphics.image_y ig - 1 - pixel / w) j);
      destruct (Z.ltb_spec (pixel mod w) i);
      destruct (Z.ltb_spec (pixel mod w) (i + 1));
      try reflexivity; try lia.
    all: rewrite ?andb_true_r, ?andb_false_r, ?orb_false_r, ?orb_true_r;
      try reflexivity; exfalso; apply Hdiff; lia.
Qed.

Lemma drawn_next_row (j : Z) :
  0 <= j ->
  drawn j (Z.of_nat (Z.to_nat (Z.min extent1 (graphics.image_x ig))))
  = drawn (j + 1) 0.
Proof.
  intros Hj. unfold drawn. apply map_ext_in. intros n Hn. apply in_seq in Hn.
  unfold byte_drawn.
  set (w := graphics.image_x ig) in *.
  set (pixel := Z.of_nat n / 3).
  assert (Hw : 0 < w) by (subst size; nia).
  pose proof (Z.mod_pos_bound pixel w Hw) as Hmw.
  destruct (Z.ltb_spec (graphics.image_y ig - 1 - pixel / w) j);
    destruct (Z.ltb_spec (graphics.image_y ig - 1 - pixel / w) (j + 1));
    destruct (Z.eqb_spec (graphics.image_y ig - 1 - pixel / w) j);
    destruct (Z.eqb_spec (graphics.image_y ig - 1 - pixel / w) (j + 1));
    destruct (Z.ltb_spec (pixel mod w) (Z.min extent1 w));
    destruct (Z.ltb_spec (pixel mod w) (Z.of_nat (Z.to_nat (Z.min extent1 w))));
    destruct (Z.ltb_spec (pixel mod w) 0);
    cbn [andb orb]; try reflexivity; lia.
Qed.

Lemma draw_row (j : Z) :
  0 <= j < graphics.image_y ig ->
  graphics.for_int 0 (Z.min extent1 (graphics.image_x ig))
    (fun i => graphics.draw_pixel value grey ig data min_value max_value j i)
    (drawn j 0)
  = graphics.Return (drawn (j + 1) 0).
Proof.
  intros Hj. unfold graphics.for_int. rewrite Z.sub_0_r.
  destruct (for_count_invariant
              (fun i => graphics.draw_pixel value grey ig data
                          min_value max_value j i)
              (Z.to_nat (Z.min extent1 (graphics.image_x ig))) 0
              (fun i d => d = drawn j (Z.of_nat i)))
    with (s := drawn j 0) as (d & Hrun & ->).
  - intros i d Hi ->. eexists. split; [| reflexivity].
    rewrite Z.add_0_l, Nat2Z.inj_succ. unfold Z.succ.
    apply draw_pixel_drawn; lia.
  - reflexivity.
  - rewrite Hrun. f_equal. apply drawn_next_row. lia.
Qed.

Lemma draw_rows :
  graphics.for_int 0 (Z.min extent0 (graphics.image_y ig))
    (fun j => graphics.for_int 0 (Z.min extent1 (graphics.image_x ig))
                (fun i => graphics.draw_pixel value grey ig data
                            min_value max_value j i))
    (drawn 0 0)
  = graphics.Return
      (drawn (Z.of_nat (Z.to_nat (Z.min extent0 (graphics.image_y ig)))) 0).
Proof.
  unfold graphics.for_int at 1. rewrite Z.sub_0_r.
  destruct (for_count_invariant
              (fun j => graphics.for_int 0 (Z.min extent1 (graphics.image_x ig))
                          (fun i => graphics.draw_pixel value grey ig data
                                      min_value max_value j i))
              (Z.to_nat (Z.min extent0 (graphics.image_y ig))) 0
              (fun j d => d = drawn (Z.of_nat j) 0))
    with (s := drawn 0 0) as (d & Hrun & ->).
  - intros j d Hj ->. eexists. split; [| reflexivity].
    rewrite Z.add_0_l, Nat2Z.inj_succ. unfold Z.succ.
    apply draw_row. lia.
  - reflexivity.
  - exact Hrun.
Qed.

Lemma update_tile_data_image_drawn (x y : Z) :
  graphics.update_tile_data_image value grey ig x y data extent0 extent1
    min_value max_value
  = graphics.Return
      {| graphics.w_x := x; graphics.w_y := y;
         graphics.w_d :=
           drawn (Z.of_nat (Z.to_nat (Z.min extent0 (graphics.image_y ig)))) 0 |}.
Proof.
  unfold graphics.update_tile_data_image, Int.mul.
  pose proof Hsize as Hsz. pose proof Hstride as Hst.
  rewrite max_int_value in Hsz, Hst.
  rewrite checked_in_range by (rewrite max_int_value, min_int_value; lia).
  cbn [graphics.int graphics.and_then].
  rewrite checked_in_range by (rewrite max_int_value, min_int_value; nia).
  cbn [graphics.int graphics.and_then].
  unfold graphics.new_bytes.
  destruct (Z.ltb_spec (3 * graphics.image_x ig * graphics.image_y ig) 0);
    [nia |].
  cbn [graphics.and_then].
  assert (Hblank : repeat None size = drawn 0 0).
  { unfold drawn. apply nth_error_ext. intros n.
    rewrite nth_error_map, nth_error_seq.
    destruct (Nat.ltb_spec n size) as [Hn | Hn].
    2: { apply nth_error_None. now rewrite repeat_length. }
    rewrite (nth_error_repeat None Hn).
    cbn [option_map Nat.add]. f_equal. unfold byte_drawn.
    set (w := graphics.image_x ig) in *.
    assert (Hw : 0 < w) by (subst size; nia).
    pose proof (Z.mod_pos_bound (Z.of_nat n / 3) w Hw) as Hmw.
    assert (Hrow : Z.of_nat n / 3 / w < graphics.image_y ig).
    { apply Z.div_lt_upper_bound; [lia |].
      apply Z.div_lt_upper_bound; subst size; lia. }
    destruct (Z.ltb_spec (graphics.image_y ig - 1 - Z.of_nat n / 3 / w) 0);
      [lia |].
    destruct (Z.ltb_spec ((Z.of_nat n / 3) mod w) 0); [lia |].
    now rewrite andb_false_r. }
  fold size. rewrite Hblank, draw_rows. reflexivity.
Qed.

End DrawingFacts.

(** The image of a tile of the grid, once the grid of images is made. *)
Lemma tile_image_made :
  forall nx ny image_x image_y zoom x y : Z,
    nx * ny <= Int.max_int ->
    Int.min_int <= image_x * zoom <= Int.max_int ->
    Int.min_int <= image_y * zoom <= Int.max_int ->
    0 <= x < nx -> 0 <= y < ny ->
    exists (ig : graphics.image_grid) (k : nat),
      graphics.new_image_grid nx ny image_x image_y zoom = graphics.Return ig /\
      length (graphics.images ig) = length (graphics.frames (graphics.base ig)) /\
      graphics.get_frame (graphics.base ig) x y = graphics.Return k /\
      nth_error (graphics.frames (graphics.base ig)) k
      = Some {| graphics.label := graphics.tile_label x y;
                graphics.shadow_type := graphics.SHADOW_ETCHED_OUT;
                graphics.border_width := 1;
                graphics.child := Some k |} /\
      graphics.vector_at (graphics.images ig) (x + nx * y)
      = graphics.Return {| graphics.pix_width := image_x * zoom;
                           graphics.pix_height := image_y * zoom;
                           graphics.pix_from := None |} /\
      nth_error (graphics.images ig) k
      = Some {| graphics.pix_width := image_x * zoom;
                graphics.pix_height := image_y * zoom;
                graphics.pix_from := None |}.
Proof.
  intros nx ny image_x image_y zoom x y Hmax Hw Hh Hx Hy.
  assert (Hny : ny <= Int.max_int) by nia.
  exists (images_made nx ny image_x image_y zoom (Z.to_nat nx * Z.to_nat ny)),
         (Z.to_nat (x + nx * y)).
  assert (Hk : Z.to_nat (x + nx * y) = (Z.to_nat x + Z.to_nat nx * Z.to_nat y)%nat)
    by nia.
  assert (Hlt : (Z.to_nat (x + nx * y) < Z.to_nat nx * Z.to_nat ny)%nat) by nia.
  split; [now apply new_image_grid_made |].
  cbn [images_made graphics.images graphics.base graphics.frames].
  split; [now rewrite repeat_length, length_map, length_seq |].
  split; [| split; [| split]].
  - rewrite get_frame_rank;
      cbn [graphics.nx graphics.frames]; rewrite ?length_map, ?length_seq.
    + destruct (Z.leb_spec 0 (x + nx * y)); [| nia].
      destruct (Z.ltb_spec (x + nx * y)
                  (Z.of_nat (Z.to_nat nx * Z.to_nat ny))); [reflexivity | nia].
    + rewrite max_int_value in *. rewrite min_int_value. nia.
    + rewrite max_int_value in *. rewrite min_int_value. nia.
  - rewrite nth_error_map, nth_error_seq.
    apply Nat.ltb_lt in Hlt. rewrite Hlt. cbn [option_map Nat.add].
    rewrite Hlt. f_equal. rewrite Hk at 2.
    rewrite frame_of_rank_at by lia.
    unfold graphics.add, made_frame. cbn. now rewrite !Z2Nat.id by lia.
  - unfold graphics.vector_at.
    destruct (Z.ltb_spec (x + nx * y) 0); [nia |].
    now rewrite (nth_error_repeat _ Hlt).
  - now rewrite (nth_error_repeat _ Hlt).
Qed.

(** X13: an image grid is made without a fault, with as many images as
    frames; for a tile [(x, y)] of the grid, the frame [get_frame(x, y)]
    returns holds the image [images.at(x + nx*y)], the one
    [update_tile_data_image(x, y, ...)] sets, and that image starts as a
    blank pixel buffer of [image_x*zoom] by [image_y*zoom]. *)
Theorem image_grid_tile_image :
  forall nx ny image_x image_y zoom x y : Z,
    nx * ny <= Int.max_int ->
    Int.min_int <= image_x * zoom <= Int.max_int ->
    Int.min_int <= image_y * zoom <= Int.max_int ->
    0 <= x < nx -> 0 <= y < ny ->
    exists (ig : graphics.image_grid) (k : nat),
      graphics.new_image_grid nx ny image_x image_y zoom = graphics.Return ig /\
      length (graphics.images ig) = length (graphics.frames (graphics.base ig)) /\
      graphics.get_frame (graphics.base ig) x y = graphics.Return k /\
      nth_error (graphics.frames (graphics.base ig)) k
      = Some {| graphics.label := graphics.tile_label x y;
                graphics.shadow_type := graphics.SHADOW_ETCHED_OUT;
                graphics.border_width := 1;
                graphics.child := Some k |} /\
      graphics.vector_at (graphics.images ig) (x + nx * y)
      = graphics.Return {| graphics.pix_width := image_x * zoom;
                           graphics.pix_height := image_y * zoom;
                           graphics.pix_from := None |} /\
      nth_error (graphics.images ig) k
      = Some {| graphics.pix_width := image_x * zoom;
                graphics.pix_height := image_y * zoom;
                graphics.pix_from := None |}.
Proof.
  intros nx ny image_x image_y zoom x y Hmax Hw Hh Hx Hy.
  now apply tile_image_made.
Qed.

(** X14: [update_tile_data_image] fills [3*image_x*image_y] bytes
    without a fault, every write inside the buffer; the pixel at row
    [row] and column [col] of the image has its three bytes equal to the
    grey level of the datum at row [image_y - 1 - row] and column [col]
    when that datum is within the extents of the data (the image is the
    data mirrored vertically), and is left unwritten otherwise. *)
Theorem update_tile_data_image_pixels :
  forall (value : Type) (grey : value -> value -> value -> Z)
         (ig : graphics.image_grid) (x y : Z) (data : Z -> Z -> value)
         (extent0 extent1 : Z) (min_value max_value : value),
    0 <= graphics.image_x ig -> 0 <= graphics.image_y ig ->
    3 * graphics.image_x ig <= Int.max_int ->
    3 * graphics.image_x ig * graphics.image_y ig <= Int.max_int ->
    exists w : graphics.work,
      graphics.update_tile_data_image value grey ig x y data extent0 extent1
        min_value max_value = graphics.Return w /\
      graphics.w_x w = x /\ graphics.w_y w = y /\
      Z.of_nat (length (graphics.w_d w))
      = 3 * graphics.image_x ig * graphics.image_y ig /\
      forall row col c : Z,
        0 <= row < graphics.image_y ig -> 0 <= col < graphics.image_x ig ->
        0 <= c < 3 ->
        nth_error (graphics.w_d w)
          (Z.to_nat (3 * (row * graphics.image_x ig + col) + c))
        = Some (if (graphics.image_y ig - 1 - row <? extent0)
                   && (col <? extent1)
                then Some (grey (data (graphics.image_y ig - 1 - row) col)
                             min_value max_value)
                else None).
Proof.
  intros value grey ig x y data extent0 extent1 min_value max_value
         Hx Hy Hstride Hsize.
  eexists. split.
  - apply (update_tile_data_image_drawn value grey ig data extent0 extent1
             min_value max_value Hx Hy Hstride Hsize x y).
  - cbn [graphics.w_x graphics.w_y graphics.w_d].
    split; [reflexivity |]. split; [reflexivity |].
    split; [rewrite length_map, length_seq; nia |].
    intros row col c Hrow Hcol Hc.
    rewrite nth_error_map, nth_error_seq.
    set (w := graphics.image_x ig) in *.
    destruct (Nat.ltb_spec (Z.to_nat (3 * (row * w + col) + c))
                (Z.to_nat (3 * w * graphics.image_y ig))) as [_ | Hge];
      [| nia].
    cbn [option_map Nat.add]. f_equal. unfold byte_drawn. fold w.
    rewrite Z2Nat.id by nia.
    assert (Hpixel : (3 * (row * w + col) + c) / 3 = row * w + col).
    { symmetry. apply (Z.div_unique _ 3 _ c); lia. }
    rewrite Hpixel.
    assert (Hr : (row * w + col) / w = row).
    { symmetry. apply (Z.div_unique _ w _ col); lia. }
    assert (Hcm : (row * w + col) mod w = col).
    { symmetry. apply (Z.mod_unique _ w row col); lia. }
    rewrite Hr, Hcm.
    destruct (Z.ltb_spec (graphics.image_y ig - 1 - row)
                (Z.of_nat (Z.to_nat (Z.min extent0 (graphics.image_y ig)))));
      destruct (Z.ltb_spec (graphics.image_y ig - 1 - row) extent0);
      destruct (Z.ltb_spec col (Z.min extent1 w));
      destruct (Z.ltb_spec col extent1);
      destruct (Z.ltb_spec col 0);
      destruct (Z.eqb_spec (graphics.image_y ig - 1 - row)
                  (Z.of_nat (Z.to_nat (Z.min extent0 (graphics.image_y ig)))));
      cbn [andb orb]; try reflexivity; lia.
Qed.


(** ** Submitting and dispatching *)













(** ** The graphics properties on small grids *)

Lemma frame_grid_round_trip_witness :
  exists (fg : graphics.frame_grid) (k : nat),
    graphics.new_frame_grid 3 2 = graphics.Return fg /\
    graphics.get_frame fg 1 1 = graphics.Return k /\
    nth_error (graphics.frames fg) k
    = Some {| graphics.label := graphics.tile_label 1 1;
              graphics.shadow_type := graphics.SHADOW_ETCHED_OUT;
              graphics.border_width := 1;
              graphics.child := None |} /\
    In (graphics.attach k 1 (2 - 1 - 1) 1 1) (graphics.grid fg).
Proof.
  apply (frame_grid_round_trip 3 2 1 1).
  - vm_compute. discriminate.
  - lia.
  - lia.
Defined.

Lemma get_frame_unchecked_row_witness :
  exists fg : graphics.frame_grid,
    graphics.new_frame_grid 3 2 = graphics.Return fg /\
    graphics.get_frame fg 3 0 = graphics.Return 3%nat /\
    graphics.get_frame fg 0 2 = graphics.Throw graphics.out_of_range.
Proof.
  assert (Hnew : exists fg : graphics.frame_grid,
             graphics.new_frame_grid 3 2 = graphics.Return fg)
    by (eexists; vm_compute; reflexivity).
  destruct Hnew as [fg Hnew]. exists fg. split; [exact Hnew |].
  assert (Hny : 2 <= Int.max_int) by (vm_compute; discriminate).
  assert (H0 : Int.min_int <= 3 * 0 <= Int.max_int)
    by (split; vm_compute; discriminate).
  assert (H3 : Int.min_int <= 3 + 3 * 0 <= Int.max_int)
    by (split; vm_compute; discriminate).
  assert (H2 : Int.min_int <= 3 * 2 <= Int.max_int)
    by (split; vm_compute; discriminate).
  assert (H6 : Int.min_int <= 0 + 3 * 2 <= Int.max_int)
    by (split; vm_compute; discriminate).
  destruct (get_frame_unchecked_row 3 2 3 0 fg Hny Hnew H0 H3)
    as (Hlen & Hin & _).
  destruct (get_frame_unchecked_row 3 2 0 2 fg Hny Hnew H2 H6)
    as (_ & _ & Hout).
  split.
  - apply Hin. rewrite Hlen. cbn. lia.
  - apply Hout. rewrite Hlen. cbn. lia.
Defined.


Lemma image_grid_tile_image_witness :
  exists (ig : graphics.image_grid) (k : nat),
    graphics.new_image_grid 3 2 8 4 3 = graphics.Return ig /\
    length (graphics.images ig) = length (graphics.frames (graphics.base ig)) /\
    graphics.get_frame (graphics.base ig) 2 1 = graphics.Return k /\
    nth_error (graphics.frames (graphics.base ig)) k
    = Some {| graphics.label := graphics.tile_label 2 1;
              graphics.shadow_type := graphics.SHADOW_ETCHED_OUT;
              graphics.border_width := 1;
              graphics.child := Some k |} /\
    graphics.vector_at (graphics.images ig) (2 + 3 * 1)
    = graphics.Return {| graphics.pix_width := 8 * 3;
                         graphics.pix_height := 4 * 3;
                         graphics.pix_from := None |} /\
    nth_error (graphics.images ig) k
    = Some {| graphics.pix_width := 8 * 3;
              graphics.pix_height := 4 * 3;
              graphics.pix_from := None |}.
Proof.
  apply (image_grid_tile_image 3 2 8 4 3 2 1).
  - vm_compute. discriminate.
  - split; vm_compute; discriminate.
  - split; vm_compute; discriminate.
  - lia.
  - lia.
Defined.

Lemma update_tile_data_image_pixels_witness :
  exists w : graphics.work,
    graphics.update_tile_data_image Z (fun v _ _ => v) small_image_grid 0 0
      (fun j i => 10 * j + i) 1 2 0 255 = graphics.Return w /\
    graphics.w_x w = 0 /\ graphics.w_y w = 0 /\
    Z.of_nat (length (graphics.w_d w)) = 3 * 3 * 2 /\
    forall row col c : Z,
      0 <= row < 2 -> 0 <= col < 3 -> 0 <= c < 3 ->
      nth_error (graphics.w_d w) (Z.to_nat (3 * (row * 3 + col) + c))
      = Some (if (2 - 1 - row <? 1) && (col <? 2)
              then Some (10 * (2 - 1 - row) + col)
              else None).
Proof.
  apply (update_tile_data_image_pixels Z (fun v _ _ => v) small_image_grid 0 0
           (fun j i => 10 * j + i) 1 2 0 255).
  - cbn; lia.
  - cbn; lia.
  - vm_compute. discriminate.
  - vm_compute. discriminate.
Defined.





(** ** The window once it is closed, and coordinates that are not checked *)



Lemma subscript_range {A : Type} (a : list A) (i : Z) :
  (exists v : A, subscript a i = Ok v) <-> 0 <= i < Z.of_nat (length a).
Proof.
  split; [| apply subscript_in_bounds].
  intros [v Hv]. unfold subscript in Hv.
  destruct (Z.ltb_spec i 0); [discriminate |].
  destruct (nth_error a (Z.to_nat i)) eqn:Hnth; [| discriminate].
  assert ((Z.to_nat i < length a)%nat) by (apply nth_error_Some; congruence).
  lia.
Qed.

Lemma subscript_outside {A : Type} (a : list A) (i : Z) :
  ~ (0 <= i < Z.of_nat (length a)) ->
  subscript a i = Fail SubscriptOutOfArray.
Proof.
  intros Hout. unfold subscript.
  destruct (Z.ltb_spec i 0); [reflexivity |].
  destruct (nth_error a (Z.to_nat i)) eqn:Hnth; [| reflexivity].
  exfalso. apply Hout.
  assert ((Z.to_nat i < length a)%nat) by (apply nth_error_Some; congruence).
  lia.
Qed.

(** X20: the accessors of the cascade stream do not check the
    coordinates they are given.  For any [x] and [y] whose subscript stays
    an [int], [get_cascade_stream_in] returns an accessor on the slot
    [x_size*y + (odd(y) ? x_max - x : x)] whenever that slot is one of the
    array, the two spare ones included, and runs outside of the array
    otherwise; so with [x = x_size] on an even row that is not the last
    it returns the slot of the tile above the end of the row. *)
Theorem cascade_accessor_unchecked :
  forall (g : Geography) (cs : cascade_stream) (Target : target) (x y : Z),
    geo_ok g -> has_geography g cs ->
    Int.min_int <= x_size g * y <= Int.max_int ->
    Int.min_int <= x_max g - x <= Int.max_int ->
    Int.min_int <= x_size g * y + (if Z.odd y then x_max g - x else x)
      <= Int.max_int ->
    get_cascade_stream_in g cs Target x y
    = (if (0 <=? x_size g * y + (if Z.odd y then x_max g - x else x))
          && (x_size g * y + (if Z.odd y then x_max g - x else x)
              <=? x_size g * y_size g)
       then Ok {| acc_slot := x_size g * y
                              + (if Z.odd y then x_max g - x else x);
                  acc_mode := read; acc_target := Target |}
       else Fail SubscriptOutOfArray) /\
    (Z.even y = true -> 0 <= y < y_size g - 1 ->
     get_cascade_stream_in g cs Target (x_size g) y
     = get_cascade_stream_in g cs Target (x_max g) (y + 1)).
Proof.
  intros g cs Target x y Hg Hcs Hm Hd Hs.
  assert (Hin : forall x y : Z,
             Int.min_int <= x_size g * y <= Int.max_int ->
             Int.min_int <= x_max g - x <= Int.max_int ->
             Int.min_int <= x_size g * y + (if Z.odd y then x_max g - x else x)
               <= Int.max_int ->
             get_cascade_stream_in g cs Target x y
             = (if (0 <=? x_size g * y + (if Z.odd y then x_max g - x else x))
                   && (x_size g * y + (if Z.odd y then x_max g - x else x)
                       <=? x_size g * y_size g)
                then Ok {| acc_slot := x_size g * y
                                       + (if Z.odd y then x_max g - x else x);
                           acc_mode := read; acc_target := Target |}
                else Fail SubscriptOutOfArray)).
  { clear x y Hm Hd Hs. intros x y Hm Hd Hs.
    unfold get_cascade_stream_in, cascade_stream_in_index, row_offset,
      Int.mul, Int.sub, Int.add.
    rewrite (checked_in_range _ Hm). cbn [bind]. rewrite low_bit_odd.
    assert (Hoff : (if Z.odd y then Int.checked (x_max g - x) else Ok x)
                   = Ok (if Z.odd y then x_max g - x else x)).
    { destruct (Z.odd y); [apply (checked_in_range _ Hd) | reflexivity]. }
    rewrite Hoff. cbn [bind]. rewrite (checked_in_range _ Hs). cbn [bind].
    set (i := x_size g * y + (if Z.odd y then x_max g - x else x)).
    unfold has_geography, cascade_stream_pipes_bound in Hcs.
    destruct (Z.leb_spec 0 i) as [Hlo | Hlo];
      destruct (Z.leb_spec i (x_size g * y_size g)) as [Hhi | Hhi];
      cbn [andb].
    - destruct (subscript_in_bounds (cascade_stream_pipes cs) i) as [p ->];
        [lia | reflexivity].
    - rewrite subscript_outside by lia. reflexivity.
    - rewrite subscript_outside by lia. reflexivity.
    - rewrite subscript_outside by lia. reflexivity. }
  split; [now apply Hin |].
  intros Hev Hy.
  destruct Hg as (_ & _ & Hxm & _ & Hxs & Hys & Hmax).
  rewrite max_int_value in Hmax.
  assert (Hodd : Z.odd y = false) by (rewrite <- Z.negb_even, Hev; reflexivity).
  assert (Hodd1 : Z.odd (y + 1) = true)
    by (rewrite Z.odd_add, Hodd; reflexivity).
  rewrite !Hin; rewrite ?Hodd, ?Hodd1;
    try (rewrite max_int_value, min_int_value; nia).
  replace (x_size g * (y + 1) + (x_max g - x_max g))
    with (x_size g * y + x_size g) by lia.
  reflexivity.
Qed.

Lemma cascade_accessor_unchecked_witness :
  get_cascade_stream_in (layout_size 3 2) (new_cascade_stream (layout_size 3 2))
    blocking_pipe 3 0
  = get_cascade_stream_in (layout_size 3 2)
      (new_cascade_stream (layout_size 3 2)) blocking_pipe 2 (0 + 1).
Proof.
  apply (proj2 (cascade_accessor_unchecked (layout_size 3 2)
                  (new_cascade_stream (layout_size 3 2)) blocking_pipe 3 0
                  ltac:(geo_ok_by_computation) eq_refl
                  ltac:(split; vm_compute; discriminate)
                  ltac:(split; vm_compute; discriminate)
                  ltac:(split; vm_compute; discriminate))).
  - reflexivity.
  - cbn. lia.
Defined.

(** ** The labels of the frames *)

Module Labels.

Import Stdlib.Strings.Ascii Stdlib.Strings.String.

Lemma lacks_uint (c : Ascii.ascii) (d : Decimal.uint) :
  (forall a : Ascii.ascii,
      In a (String.list_ascii_of_string "0123456789"%string) -> a <> c) ->
  lacks c (DecimalString.NilEmpty.string_of_uint d).
Proof.
  intros Hc. induction d; cbn [DecimalString.NilEmpty.string_of_uint lacks];
    try exact I; (split; [apply Hc; cbn; tauto | assumption]).
Qed.

Lemma lacks_decimal (c : Ascii.ascii) (z : Z) :
  (forall a : Ascii.ascii,
      In a (String.list_ascii_of_string "-0123456789"%string) -> a <> c) ->
  lacks c (graphics.decimal z).
Proof.
  intros Hc.
  assert (Hd : forall d : Decimal.uint,
             lacks c (DecimalString.NilZero.string_of_uint d)).
  { intros d.
    assert (Hu : lacks c (DecimalString.NilEmpty.string_of_uint d))
      by (apply lacks_uint; intros a Ha; apply Hc; cbn in *; tauto).
    destruct d; try exact Hu. cbn. split; [apply Hc; cbn; tauto | exact I]. }
  unfold graphics.decimal, DecimalString.NilZero.string_of_int.
  destruct (Z.to_int z) as [d | d]; [apply Hd |].
  cbn [lacks]. split; [apply Hc; cbn; tauto | apply Hd].
Qed.

Lemma append_separator (c : Ascii.ascii) (a : String.string) :
  forall a' r r' : String.string,
    lacks c a -> lacks c a' ->
    String.append a (String.String c r) = String.append a' (String.String c r') ->
    a = a' /\ r = r'.
Proof.
  induction a as [| x a IH]; intros [| x' a'] r r' Ha Ha' Heq; cbn in *.
  - injection Heq as <-. now split.
  - injection Heq as <- _. now destruct Ha'.
  - injection Heq as -> _. now destruct Ha.
  - injection Heq as <- Heq.
    destruct (IH a' r r') as [<- <-]; tauto.
Qed.

Lemma decimal_injective (x x' : Z) :
  graphics.decimal x = graphics.decimal x' -> x = x'.
Proof.
  unfold graphics.decimal. intros Heq.
  assert (Hnn : forall z : Z,
             Z.to_int z <> Decimal.Pos Decimal.Nil /\
             Z.to_int z <> Decimal.Neg Decimal.Nil).
  { intros [| p | p]; cbn; split; try discriminate;
      intros H; injection H as H;
      now apply Stdlib.Numbers.DecimalPos.Unsigned.to_uint_nonnil in H. }
  apply Stdlib.Numbers.DecimalZ.to_int_inj.
  apply (f_equal DecimalString.NilZero.int_of_string) in Heq.
  rewrite !DecimalString.NilZero.isi in Heq by apply Hnn.
  now injection Heq.
Qed.

Lemma tile_label_injective :
  forall x y x' y' : Z,
    graphics.tile_label x y = graphics.tile_label x' y' -> x = x' /\ y = y'.
Proof.
  intros x y x' y' Heq. unfold graphics.tile_label in Heq.
  cbn [String.append] in Heq. injection Heq as Heq.
  assert (Hcomma : forall z : Z, lacks ","%char (graphics.decimal z)).
  { intros z. apply lacks_decimal. intros a Ha. cbn in Ha.
    repeat (destruct Ha as [<- | Ha]; [discriminate |]). destruct Ha. }
  assert (Hparen : forall z : Z, lacks ")"%char (graphics.decimal z)).
  { intros z. apply lacks_decimal. intros a Ha. cbn in Ha.
    repeat (destruct Ha as [<- | Ha]; [discriminate |]). destruct Ha. }
  apply append_separator in Heq; [| apply Hcomma | apply Hcomma].
  destruct Heq as [Hx Hy].
  apply append_separator in Hy; [| apply Hparen | apply Hparen].
  split; apply decimal_injective; tauto.
Qed.

(** X21: two different tiles never get the same label
    [Tile(x,y)] on their frames. *)
Theorem tile_labels_distinct :
  forall x y x' y' : Z,
    x <> x' \/ y <> y' ->
    graphics.tile_label x y <> graphics.tile_label x' y'.
Proof.
  intros x y x' y' Hne Heq.
  apply tile_label_injective in Heq. tauto.
Qed.

Lemma tile_labels_distinct_witness :
  graphics.tile_label 12 3 <> graphics.tile_label 1 23.
Proof.
  apply (tile_labels_distinct 12 3 1 23). left. discriminate.
Defined.

End Labels.
